(** * ComplexPropertyCollection: a change-tracking collection of complex properties

    A shallow embedding of [src/js/ComplexProperties/ComplexPropertyCollection.ts]
    and the properties of its mutation, ingestion and emission operations.

    The class is stateful: it owns four arrays of element references, it
    subscribes to its elements' change notifications and it throws.  The
    embedding threads a [world] (the collection, the element objects it
    refers to, the diagnostic console) through a state-and-exception monad
    [Eff]; an exception keeps the world as the code left it. *)

From stdpp Require Import base decidable option list strings pretty.
From Equations Require Import Equations.
From Stdlib Require Import ZArith Lia.

Set Default Proof Using "Type".
Set Warnings "-register-all".
Local Open Scope Z_scope.

(** ** JavaScript values the collection handles *)

(** Element objects are compared by reference ([indexOf], [===]). *)
Abbreviation ref := nat (only parsing).

(** The loosely-typed object graph an XML response was converted to.
    [JNull] stands for both [null] and [undefined], which [x != null] does
    not tell apart; [JObject] lists the own enumerable properties in
    [for ... in] order. *)
Inductive jsval :=
| JNull
| JString (s : string)
| JArray (l : list jsval)
| JObject (props : list (string * jsval)).

(** The entries of the [Strings] table the file uses. *)
Inductive Strings :=
| IndexIsOutOfRange
| PropertyCollectionSizeMismatch
| PropertyTypeIncompatibleWhenUpdatingCollection.

Inductive exn :=
| ArgumentOutOfRangeException (paramName : string) (message : Strings)
| ServiceLocalException (message : option Strings)
| TypeError.

(** Functions that can sit in an element's [OnChange] array.
    [this.ItemChanged] reads the method off the prototype and is the same
    object at every read; [this.ItemChanged.bind(this)] creates a new bound
    function at every call, numbered here in creation order.  Neither is
    [===] to the other. *)
Inductive delegate :=
| ItemChanged_method
| ItemChanged_bound (k : nat).

Global Instance Strings_eq_dec : EqDecision Strings.
Proof. solve_decision. Defined.
Global Instance exn_eq_dec : EqDecision exn.
Proof. solve_decision. Defined.
Global Instance delegate_eq_dec : EqDecision delegate.
Proof. solve_decision. Defined.

(** ** Array helpers *)

(** [Array.prototype.indexOf]: position of the first entry equal to [x],
    [-1] when there is none. *)
Fixpoint indexOf {A} `{EqDecision A} (arr : list A) (x : A) : Z :=
  match arr with
  | [] => -1
  | y :: ys =>
      if decide (y = x) then 0
      else let i := indexOf ys x in if i <? 0 then -1 else i + 1
  end.

(** Modelled from the spec: [ArrayHelper.RemoveEntry(array, entry)] is not
    in this file.  The specification has it purge an element, found by
    identity, from an array; the comments at its call sites give the C# it
    ports, [List.Remove]: the first occurrence is spliced out and the call
    reports whether there was one.  Returns the report and the array after
    the call. *)
Definition RemoveEntry {A} `{EqDecision A} (array : list A) (entry : A)
  : bool * list A :=
  let index := indexOf array entry in
  if 0 <=? index then (true, delete (Z.to_nat index) array)
  else (false, array).

(** [array[index]] for a number that is an integer: [undefined] ([None])
    outside the array. *)
Definition array_get {A} (array : list A) (index : Z) : option A :=
  if index <? 0 then None else array !! Z.to_nat index.

(** The list without the first occurrence of [x]; the reference the
    statements below use for what [RemoveEntry] leaves. *)
Fixpoint remove_first {A} `{EqDecision A} (x : A) (l : list A) : list A :=
  match l with
  | [] => []
  | y :: ys => if decide (y = x) then ys else y :: remove_first x ys
  end.

(** A value together with the fact that it is the value of the expression;
    used where a loop's next turn depends on a test just made. *)
Definition inspect {A} (a : A) : {b | a = b} := exist _ a eq_refl.

(** ** The XML writer and the collaborators of the update serialization *)

(** The namespaces this file writes in. *)
Inductive XmlNamespace :=
| Types.

(** What a writer has been asked to write, oldest first. *)
Inductive xml_token :=
| StartElement (xmlNamespace : XmlNamespace) (localName : string)
| EndElement
| Text (s : string).

Definition EwsServiceXmlWriter := list xml_token.

Definition WriteStartElement (xmlNamespace : XmlNamespace) (localName : string)
    (writer : EwsServiceXmlWriter) : EwsServiceXmlWriter :=
  writer ++ [StartElement xmlNamespace localName].
Definition WriteEndElement (writer : EwsServiceXmlWriter) : EwsServiceXmlWriter :=
  writer ++ [EndElement].

(** The owning entity, as far as the collection asks it. *)
Record ServiceObject := {
  GetDeleteFieldXmlElementName : string;
}.

(** A property definition, as far as the collection asks it: the schema
    identity its [WriteToXml(writer)] writes. *)
Record PropertyDefinition := {
  schema_identity : list xml_token;
}.

Definition PropertyDefinition_WriteToXml (propertyDefinition : PropertyDefinition)
    (writer : EwsServiceXmlWriter) : EwsServiceXmlWriter :=
  writer ++ schema_identity propertyDefinition.

(** ** The environment of the class *)

(** What the class takes from its surroundings: the element classes and their
    own (de)serialization, the two helpers of the JSON layer the ingestion
    code calls, and the three abstract methods a concrete collection
    supplies. *)
Class Host := {
  (** element classes (constructors) *)
  ctor : Type;
  (** an element's own state *)
  fields : Type;
  ExchangeService : Type;
  (** [x instanceof C] for an [x] created by constructor [c] *)
  instanceof : ctor → ctor → bool;
  (** the state of a newly constructed element *)
  new_fields : ctor → fields;
  (** [ComplexProperty.LoadFromXmlJsObject] of an element of the given class:
      the state it ends with and how many times it called its own
      [Changed()] on the way *)
  LoadFromXmlJsObject : ctor → jsval → ExchangeService → fields → fields * nat;
  (** what [TypeSystem.GetJsObjectTypeName] reads off a value that is
      neither [null] nor [undefined]: its type hint, [None] for [undefined] *)
  GetJsObjectTypeName : jsval → option string;
  (** [EwsServiceJsonReader.ReadAsArray(obj, key)] *)
  ReadAsArray : jsval → string → list jsval;
  (** abstract: the class [CreateComplexProperty(xmlElementName)]
      instantiates, [None] when it returns [null] *)
  CreateComplexProperty : string → option ctor;
  (** abstract: the class [CreateDefaultComplexProperty()] instantiates *)
  CreateDefaultComplexProperty : option ctor;
  (** abstract: the tag of an element, asked with [null] ([None]) for the
      generic one; [None] when it answers [null] *)
  GetCollectionItemXmlElementName : option ref → option string;
  (** [EwsLogging.DebugLogEnabled], the static switch of the diagnostic
      log; the library starts with it off *)
  DebugLogEnabled : bool;
}.

Section Collection.
Context `{Host}.

(** ** The world *)

(** An element object: its class, its [OnChange] delegates, its own state. *)
Record element := Element {
  constructor : ctor;
  OnChange : list delegate;
  state : fields;
}.

Record world := World {
  (** the element objects, by reference; [new] appends *)
  heap : list element;
  (** bound functions created so far *)
  binds : nat;
  items : list ref;
  addedItems : list ref;
  modifiedItems : list ref;
  removedItems : list ref;
  (** how many times the collection called its own [Changed()] *)
  changed : nat;
  (** the failed [EwsLogging.Assert]s written to the console, as
      (caller, message), oldest first *)
  console : list (string * string);
}.

Definition empty_world : world := World [] 0%nat [] [] [] [] 0%nat [].

Definition set_heap (f : list element → list element) (w : world) : world :=
  World (f (heap w)) (binds w) (items w) (addedItems w) (modifiedItems w)
        (removedItems w) (changed w) (console w).
Definition set_binds (f : nat → nat) (w : world) : world :=
  World (heap w) (f (binds w)) (items w) (addedItems w) (modifiedItems w)
        (removedItems w) (changed w) (console w).
Definition set_items (f : list ref → list ref) (w : world) : world :=
  World (heap w) (binds w) (f (items w)) (addedItems w) (modifiedItems w)
        (removedItems w) (changed w) (console w).
Definition set_addedItems (f : list ref → list ref) (w : world) : world :=
  World (heap w) (binds w) (items w) (f (addedItems w)) (modifiedItems w)
        (removedItems w) (changed w) (console w).
Definition set_modifiedItems (f : list ref → list ref) (w : world) : world :=
  World (heap w) (binds w) (items w) (addedItems w) (f (modifiedItems w))
        (removedItems w) (changed w) (console w).
Definition set_removedItems (f : list ref → list ref) (w : world) : world :=
  World (heap w) (binds w) (items w) (addedItems w) (modifiedItems w)
        (f (removedItems w)) (changed w) (console w).
Definition set_changed (f : nat → nat) (w : world) : world :=
  World (heap w) (binds w) (items w) (addedItems w) (modifiedItems w)
        (removedItems w) (f (changed w)) (console w).
Definition set_console (f : list (string * string) → list (string * string))
    (w : world) : world :=
  World (heap w) (binds w) (items w) (addedItems w) (modifiedItems w)
        (removedItems w) (changed w) (f (console w)).

(** ** State and exceptions *)

Inductive completion (A : Type) :=
| Normal (a : A)
| Throw (e : exn).
Global Arguments Normal {A} a.
Global Arguments Throw {A} e.

Definition Eff (A : Type) : Type := world → completion A * world.

Global Instance Eff_ret : MRet Eff := λ A a w, (Normal a, w).
Global Instance Eff_bind : MBind Eff := λ A B f m w,
  match m w with
  | (Normal a, w') => f a w'
  | (Throw e, w') => (Throw e, w')
  end.
Global Instance Eff_throw : MThrow exn Eff := λ A e w, (Throw e, w).

Definition gets {A} (f : world → A) : Eff A := λ w, (Normal (f w), w).
Definition modify (f : world → world) : Eff unit := λ w, (Normal tt, f w).

(** [for (let x of xs) body(x)] *)
Fixpoint for_of {A} (xs : list A) (body : A → Eff unit) : Eff unit :=
  match xs with
  | [] => mret tt
  | x :: xs' => body x;; for_of xs' body
  end.

(** Modelled from the spec: [EwsLogging.Assert(condition, caller, message)]
    is not in this file, and the specification gives a failed assertion no
    effect on the collection and no error of its own.  It is the library's
    diagnostic: a failed condition is written to the console when
    [EwsLogging.DebugLogEnabled] is set and is passed over in silence when
    it is not; either way the call returns.  The class relies on that in its
    own [LoadFromXmlJsObject], which calls [Assert(false, ...)] and then
    goes on to ingest. *)
Definition Assert (condition : bool) (caller message : string) : Eff unit :=
  if condition then mret tt
  else if DebugLogEnabled then
    modify (set_console (λ c, c ++ [(caller, message)]))
  else mret tt.

(** ** Mutation and change tracking *)

(** [get Count()] *)
Definition Count (w : world) : Z := Z.of_nat (length (items w)).

(** [_getItem(index)].  Past the range check the array has an element at
    [index]; the last branch is not reached. *)
Definition _getItem (index : Z) : Eff ref :=
  n ← gets Count;
  if (index <? 0) || (n <=? index) then
    mthrow (ArgumentOutOfRangeException "index" IndexIsOutOfRange)
  else
    its ← gets items;
    match array_get its index with
    | Some x => mret x
    | None => mthrow TypeError
    end.

(** [ClearChangeLog()] *)
Definition ClearChangeLog : Eff unit :=
  modify (set_removedItems (λ _, []));;
  modify (set_addedItems (λ _, []));;
  modify (set_modifiedItems (λ _, [])).

(** [Contains(complexProperty)] *)
Definition Contains (complexProperty : ref) : Eff bool :=
  its ← gets items; mret (0 <=? indexOf its complexProperty).

(** [IndexOf(complexProperty)] *)
Definition IndexOf (complexProperty : ref) : Eff Z :=
  its ← gets items; mret (indexOf its complexProperty).

(** [this.Changed()] of the collection: the "changed" signal. *)
Definition Changed : Eff unit := modify (set_changed S).

(** [this.<array>.push(x)] and [ArrayHelper.RemoveEntry(this.<array>, x)] on
    one of the four arrays, given by its getter and setter. *)
Definition push (set : (list ref → list ref) → world → world) (x : ref)
  : Eff unit :=
  modify (set (λ l, l ++ [x])).
Definition RemoveEntry_of (get : world → list ref)
    (set : (list ref → list ref) → world → world) (entry : ref) : Eff bool :=
  l ← gets get;
  modify (set (λ _, (RemoveEntry l entry).2));;
  mret (RemoveEntry l entry).1.

(** [ItemChanged(complexProperty)] *)
Definition ItemChanged (complexProperty : ref) : Eff unit :=
  let property := complexProperty in
  added ← gets addedItems;
  if indexOf added property <? 0 then
    modified ← gets modifiedItems;
    if indexOf modified property <? 0 then
      push set_modifiedItems property;;
      Changed
    else mret tt
  else mret tt.

(** [this.ItemChanged.bind(this)] *)
Definition bind_ItemChanged : Eff delegate :=
  k ← gets binds;
  modify (set_binds S);;
  mret (ItemChanged_bound k).

(** [x.OnChange = f(x.OnChange)] on the element object [x] (a reference
    that is no object of the world has nothing to update). *)
Definition set_OnChange (x : ref) (f : list delegate → list delegate) : Eff unit :=
  modify (set_heap (alter (λ e, Element (constructor e) (f (OnChange e)) (state e)) x)).

(** [InternalAdd(complexProperty, loading = false)], for an element object
    (what its parameter type admits), so the assertion holds. *)
Definition InternalAdd (complexProperty : ref) (loading : bool) : Eff unit :=
  Assert true "ComplexPropertyCollection.InternalAdd" "complexProperty is null";;
  its ← gets items;
  if indexOf its complexProperty <? 0 then
    push set_items complexProperty;;
    (if negb loading then
       RemoveEntry_of removedItems set_removedItems complexProperty;;
       push set_addedItems complexProperty
     else mret tt);;
    d ← bind_ItemChanged;
    set_OnChange complexProperty (λ l, l ++ [d]);;
    Changed
  else mret tt.

(** [InternalRemove(complexProperty)].  [None] is [undefined], which
    [InternalRemoveAt] passes for an index outside the array; the arrays
    hold element objects, so [RemoveEntry] does not find it. *)
Definition InternalRemove (complexProperty : option ref) : Eff bool :=
  Assert (bool_decide (is_Some complexProperty))
    "ComplexPropertyCollection.InternalRemove" "complexProperty is null";;
  match complexProperty with
  | None => mret false
  | Some x =>
      found ← RemoveEntry_of items set_items x;
      if (found : bool) then
        set_OnChange x (λ l, (RemoveEntry l ItemChanged_method).2);;
        added ← gets addedItems;
        (if indexOf added x <? 0 then
           push set_removedItems x
         else
           RemoveEntry_of addedItems set_addedItems x;; mret tt);;
        RemoveEntry_of modifiedItems set_modifiedItems x;;
        Changed;;
        mret true
      else mret false
  end.

(** [InternalRemoveAt(index)] *)
Definition InternalRemoveAt (index : Z) : Eff unit :=
  n ← gets Count;
  Assert ((0 <=? index) && (index <? n))
    "ComplexPropertyCollection.InternalRemoveAt" "index is out of range.";;
  its ← gets items;
  InternalRemove (array_get its index);;
  mret tt.

(** [RemoveFromChangeLog(complexProperty)] *)
Definition RemoveFromChangeLog (complexProperty : ref) : Eff unit :=
  RemoveEntry_of removedItems set_removedItems complexProperty;;
  RemoveEntry_of modifiedItems set_modifiedItems complexProperty;;
  RemoveEntry_of addedItems set_addedItems complexProperty;;
  mret tt.

(** [ShouldWriteToRequest()] *)
Definition ShouldWriteToRequest : Eff bool :=
  n ← gets Count; mret (0 <? n).

(** ** Element objects *)

(** [new C()]: a new object, with no delegates yet; its reference is the
    next free one. *)
Definition new (c : ctor) : Eff ref :=
  h ← gets heap;
  modify (set_heap (λ h, h ++ [Element c [] (new_fields c)]));;
  mret (length h).

(** Calling a delegate with the element that changed.  The bound function
    runs [ItemChanged] on the collection; the method taken off the prototype
    would run with no [this]. *)
Definition invoke (d : delegate) (sender : ref) : Eff unit :=
  match d with
  | ItemChanged_bound _ => ItemChanged sender
  | ItemChanged_method => mthrow TypeError
  end.

(** Modelled from the spec: the change notification of an element
    ([ComplexProperty.Changed()] of the base class, which is not in this
    file) calls every delegate registered in the element's [OnChange] with
    the element. *)
Definition element_Changed (x : ref) : Eff unit :=
  h ← gets heap;
  match h !! x with
  | Some e => for_of (OnChange e) (λ d, invoke d x)
  | None => mret tt
  end.

(** An element object after its [LoadFromXmlJsObject(jsonProperty, service)]
    has set its state. *)
Definition loaded (jsonProperty : jsval) (service : ExchangeService)
    (e : element) : element :=
  Element (constructor e) (OnChange e)
    (LoadFromXmlJsObject (constructor e) jsonProperty service (state e)).1.

(** [x.LoadFromXmlJsObject(jsonProperty, service)] on the element object [x]:
    the element takes its new state and notifies as often as its class
    says. *)
Definition element_LoadFromXmlJsObject (x : ref) (jsonProperty : jsval)
    (service : ExchangeService) : Eff unit :=
  h ← gets heap;
  match h !! x with
  | Some e =>
      let notifications :=
        (LoadFromXmlJsObject (constructor e) jsonProperty service (state e)).2 in
      modify (set_heap (alter (loaded jsonProperty service) x));;
      for_of (replicate notifications tt) (λ _, element_Changed x)
  | None => mret tt
  end.

(** ** Ingestion *)

(** A type name used as a condition: [undefined] and the empty string are
    falsy. *)
Definition truthy (typeName : option string) : bool :=
  match typeName with
  | Some s => negb (String.eqb s "")
  | None => false
  end.

(** The keys [for (let key in v)] visits. *)
Definition js_keys (v : jsval) : list string :=
  match v with
  | JNull => []
  | JString s => (λ i : nat, pretty i) <$> seq 0 (String.length s)
  | JArray l => (λ i : nat, pretty i) <$> seq 0 (length l)
  | JObject props => remove_dups props.*1
  end.

(** [v[key]] when [ArrayHelper.isArray] holds of it. *)
Definition array_property (v : jsval) (key : string) : option (list jsval) :=
  match v with
  | JObject props =>
      match (list_find (λ p, p.1 = key) props) with
      | Some (_, (_, JArray a)) => Some a
      | _ => None
      end
  | _ => None
  end.

(** Modelled from the spec: [TypeSystem.GetJsObjectTypeName(obj)] is not in
    this file.  The specification has it resolve the type name of a
    payload from the type hint embedded in the payload: a property read off
    [obj].  JavaScript refuses a property read off [null] and [undefined]
    with a [TypeError]; what is read off any other value is the host's
    [GetJsObjectTypeName]. *)
Definition TypeSystem_GetJsObjectTypeName (obj : jsval)
  : completion (option string) :=
  match obj with
  | JNull => Throw TypeError
  | _ => Normal (GetJsObjectTypeName obj)
  end.

(** The first part of both ingestion methods (the same text in each): the
    list of element payloads a wire payload stands for, or the exception
    raised on the way.  A payload that is no array goes through
    [TypeSystem.GetJsObjectTypeName] before anything tests it for [null]. *)
Definition collection_of (jsObjectCollection : jsval)
  : completion (list jsval) :=
  match jsObjectCollection with
  | JArray collection => Normal collection
  | _ =>
      let collectionElement := GetCollectionItemXmlElementName None in
      match TypeSystem_GetJsObjectTypeName jsObjectCollection with
      | Throw e => Throw e
      | Normal typeName =>
          if bool_decide (collectionElement = None)
             || (truthy typeName && bool_decide (collectionElement = typeName))
          then Normal [jsObjectCollection]
          else
            Normal
              (foldl (λ collection key,
                        if String.prefix "__" key then collection
                        else
                          let collectionObj :=
                            match array_property jsObjectCollection key with
                            | Some a => a
                            | None => ReadAsArray jsObjectCollection key
                            end in
                          collection ++ collectionObj)
                     [] (js_keys jsObjectCollection))
      end
  end.

(** A completion of a part that does not touch the world, taken into a
    computation. *)
Definition complete {A} (c : completion A) : Eff A := λ w, (c, w).

(** The class an element payload asks for: the one of its type hint when it
    has one, the default one otherwise; [None] is [null].  Both loops call
    it under [jsonProperty != null], where reading the type hint does not
    throw. *)
Definition resolve (jsonProperty : jsval) : option ctor :=
  let typeName := GetJsObjectTypeName jsonProperty in
  if truthy typeName then CreateComplexProperty (default ""%string typeName)
  else CreateDefaultComplexProperty.

(** [CreateFromXmlJsObjectCollection(jsObjectCollection, service)] *)
Definition CreateFromXmlJsObjectCollection (jsObjectCollection : jsval)
    (service : ExchangeService) : Eff unit :=
  collection ← complete (collection_of jsObjectCollection);
  for_of collection (λ jsonObject,
    let jsonProperty := jsonObject in
    match jsonProperty with
    | JNull => mret tt
    | _ =>
        match resolve jsonProperty with
        | Some c =>
            complexProperty ← new c;
            element_LoadFromXmlJsObject complexProperty jsonProperty service;;
            InternalAdd complexProperty true
        | None => mret tt
        end
    end).

(** [LoadFromXmlJsObject(jsObject, service)] of the collection itself *)
Definition collection_LoadFromXmlJsObject (jsObject : jsval)
    (service : ExchangeService) : Eff unit :=
  Assert false "ComplexPropertyCollection.LoadFromXmlJsObject"
    "LoadFromXmlJsObject was called, should not be calling. Fix it to direct to Create or Update call instad.";;
  CreateFromXmlJsObjectCollection jsObject service.

(** The loop of [UpdateFromXmlJsObjectCollection], from position [index]
    on. *)
Fixpoint update_loop (collection : list jsval) (service : ExchangeService)
    (index : Z) : Eff unit :=
  match collection with
  | [] => mret tt
  | jsonObject :: rest =>
      let jsonProperty := jsonObject in
      match jsonProperty with
      | JNull => mthrow (ServiceLocalException None)
      | _ =>
          let expectedComplexProperty := resolve jsonProperty in
          actualComplexProperty ← _getItem index;
          h ← gets heap;
          match expectedComplexProperty, h !! actualComplexProperty with
          | Some expected, Some actual =>
              if instanceof (constructor actual) expected then
                element_LoadFromXmlJsObject actualComplexProperty jsonProperty service;;
                update_loop rest service (index + 1)
              else
                mthrow (ServiceLocalException
                          (Some PropertyTypeIncompatibleWhenUpdatingCollection))
          | _, _ =>
              mthrow (ServiceLocalException
                        (Some PropertyTypeIncompatibleWhenUpdatingCollection))
          end
      end
  end.

(** [UpdateFromXmlJsObjectCollection(jsObjectCollection, service)] *)
Definition UpdateFromXmlJsObjectCollection (jsObjectCollection : jsval)
    (service : ExchangeService) : Eff unit :=
  collection ← complete (collection_of jsObjectCollection);
  n ← gets Count;
  if bool_decide (n ≠ Z.of_nat (length collection)) then
    mthrow (ServiceLocalException (Some PropertyCollectionSizeMismatch))
  else
    update_loop collection service 0.

(** ** Emission *)

(** [WriteSetUpdateToXml(writer, ewsObject, propertyDefinition)]: the
    report and the writer after the call. *)
Definition WriteSetUpdateToXml (writer : EwsServiceXmlWriter)
    (ewsObject : ServiceObject) (propertyDefinition : PropertyDefinition)
  : Eff (bool * EwsServiceXmlWriter) :=
  n ← gets Count;
  if n =? 0 then
    let writer := WriteStartElement Types (GetDeleteFieldXmlElementName ewsObject) writer in
    let writer := PropertyDefinition_WriteToXml propertyDefinition writer in
    let writer := WriteEndElement writer in
    mret (true, writer)
  else
    mret (false, writer).

(** [WriteDeleteUpdateToXml(writer, ewsObject)] *)
Definition WriteDeleteUpdateToXml (writer : EwsServiceXmlWriter)
    (ewsObject : ServiceObject) : Eff (bool * EwsServiceXmlWriter) :=
  mret (false, writer).

(** ** Clearing *)

(** [InternalClear()]: [while (this.Count > 0) this.InternalRemoveAt(0)].
    The loop is defined by recursion on [Count]: a turn taken with
    [Count > 0] removes the first element, so it shortens [items]. *)
Equations? InternalClear (w : world) : completion unit * world
  by wf (length (items w)) lt :=
InternalClear w with inspect (0 <? Count w) := {
  | exist _ true more with inspect (InternalRemoveAt 0 w) := {
      | exist _ (Normal _, w') turn => InternalClear w'
      | exist _ (Throw e, w') turn => (Throw e, w') }
  | exist _ false done_ => (Normal tt, w) }.
Proof.
  clear InternalClear. destruct a. revert more turn. unfold Count.
  destruct w as [h b its ad mo re ch co]; simpl.
  destruct its as [|x l]; simpl; [discriminate|]. intros _.
  unfold InternalRemoveAt, InternalRemove, RemoveEntry_of, RemoveEntry, Assert,
    set_OnChange, push, Changed, gets, modify, mbind, mret, Eff_bind, Eff_ret, Count;
    simpl.
  rewrite decide_True by done. simpl.
  destruct (indexOf ad x <? 0); simpl; intros [= <-]; simpl; lia.
Qed.

(** What the specification compares [InternalClear] with: one
    [InternalRemove] call on the element that is first at that time, and
    [n] such calls in a row. *)
Definition Remove_first : Eff bool :=
  its ← gets items; InternalRemove (head its).

Fixpoint Remove_first_times (n : nat) : Eff unit :=
  match n with
  | O => mret tt
  | S n' => Remove_first;; Remove_first_times n'
  end.

(** ** Runs of public operations *)

(** What a client can do with a collection and its elements: construct an
    element, call the collection's operations, and change an element, which
    then notifies. *)
Inductive operation :=
| op_new (c : ctor)
| op_Add (x : ref)
| op_Remove (x : ref)
| op_RemoveAt (index : Z)
| op_Clear
| op_CreateFromWire (payload : jsval) (service : ExchangeService)
| op_UpdateFromWire (payload : jsval) (service : ExchangeService)
| op_notify (x : ref)
| op_ClearChangeLog
| op_RemoveFromChangeLog (x : ref).

(** The world after an operation, whether it returned or threw. *)
Definition perform (o : operation) (w : world) : world :=
  match o with
  | op_new c => (new c w).2
  | op_Add x => (InternalAdd x false w).2
  | op_Remove x => (InternalRemove (Some x) w).2
  | op_RemoveAt index => (InternalRemoveAt index w).2
  | op_Clear => (InternalClear w).2
  | op_CreateFromWire payload service =>
      (CreateFromXmlJsObjectCollection payload service w).2
  | op_UpdateFromWire payload service =>
      (UpdateFromXmlJsObjectCollection payload service w).2
  | op_notify x => (element_Changed x w).2
  | op_ClearChangeLog => (ClearChangeLog w).2
  | op_RemoveFromChangeLog x => (RemoveFromChangeLog x w).2
  end.

(** The elements an operation is called with are objects of the world. *)
Definition on_objects (o : operation) (w : world) : Prop :=
  match o with
  | op_Add x | op_Remove x | op_notify x | op_RemoveFromChangeLog x =>
      (x < length (heap w))%nat
  | _ => True
  end.

Inductive reachable : world → Prop :=
| reachable_empty : reachable empty_world
| reachable_perform o w :
    reachable w → on_objects o w → reachable (perform o w).

(** ** Predicates the statements use *)

(** The world [InternalRemove(x)] leaves when [x] is a member. *)
Definition removed_from (x : ref) (w : world) : world :=
  World
    (alter (λ e, Element (constructor e)
                   (remove_first ItemChanged_method (OnChange e)) (state e))
           x (heap w))
    (binds w)
    (remove_first x (items w))
    (if bool_decide (x ∈ addedItems w) then remove_first x (addedItems w)
     else addedItems w)
    (remove_first x (modifiedItems w))
    (if bool_decide (x ∈ addedItems w) then removedItems w
     else removedItems w ++ [x])
    (S (changed w))
    (console w).

(** The world after the diagnostic log was handed some reports: they are on
    the console when the log is enabled, and nowhere when it is not. *)
Definition reported (reports : list (string * string)) (w : world) : world :=
  if DebugLogEnabled then set_console (λ c, c ++ reports) w else w.

(** [w'] differs from [w] in [modifiedItems] and the signal count at most. *)
Definition marks_only (w w' : world) : Prop :=
  heap w' = heap w ∧ binds w' = binds w ∧ items w' = items w ∧
  addedItems w' = addedItems w ∧ removedItems w' = removedItems w ∧
  console w' = console w.

(** Every delegate registered on an element object is a bound function, as
    [InternalAdd] registers them. *)
Definition delegates_bound (w : world) : Prop :=
  Forall (λ e, ItemChanged_method ∉ OnChange e) (heap w).

(** The element object [x] has a delegate registered. *)
Definition subscribed (w : world) (x : ref) : Prop :=
  ∃ e, heap w !! x = Some e ∧ OnChange e ≠ [].

(** What every run keeps: delegates are bound functions, no reference is
    twice in the sequence, in [addedItems] or in [modifiedItems], an added
    element is a member, and the members are objects of the world with a
    delegate registered. *)
Definition well_formed (w : world) : Prop :=
  delegates_bound w ∧ NoDup (items w) ∧ NoDup (addedItems w) ∧
  NoDup (modifiedItems w) ∧ addedItems w ⊆ items w ∧
  Forall (λ x, (x < length (heap w))%nat) (items w) ∧
  Forall (subscribed w) (items w).

(** The update loop accepts a payload entry at a position: the entry is not
    [null], it resolves to a class, and the element at that position is an
    instance of it. *)
Definition accepts (w : world) (position : nat) (jsonProperty : jsval) : bool :=
  match jsonProperty with
  | JNull => false
  | _ =>
      match resolve jsonProperty, items w !! position ≫= (heap w !!.) with
      | Some expected, Some actual => instanceof (constructor actual) expected
      | _, _ => false
      end
  end.

(** The error the update loop raises for an entry it does not accept. *)
Definition rejection (jsonProperty : jsval) : exn :=
  match jsonProperty with
  | JNull => ServiceLocalException None
  | _ => ServiceLocalException (Some PropertyTypeIncompatibleWhenUpdatingCollection)
  end.

(** The element objects after the elements at the first positions have
    loaded the payload entries at the same positions, in order. *)
Definition loads (service : ExchangeService) (positions : list ref)
    (entries : list jsval) (h : list element) : list element :=
  foldl (λ h xp, alter (loaded xp.2 service) xp.1 h) h (zip positions entries).

End Collection.

Global Arguments world {_}.
Global Arguments element {_}.
Global Arguments Eff {_} A.

(** ** A concrete host

    A collection of elements of two classes, used to run the operations on
    concrete inputs.  An element's state is the list of payloads it has
    loaded; loading notifies once. *)
Module Demo.

Definition type_hint (v : jsval) : option string :=
  match v with
  | JObject props =>
      match list_find (λ p : string * jsval, p.1 = "__type"%string) props with
      | Some (_, (_, JString s)) => Some s
      | _ => None
      end
  | _ => None
  end.

(** Modelled from the spec: [ReadAsArray] normalizes the value of a key to
    a list, wrapping a bare value as a one-element list. *)
Definition read_as_array (v : jsval) (key : string) : list jsval :=
  match v with
  | JObject props =>
      match list_find (λ p : string * jsval, p.1 = key) props with
      | Some (_, (_, JArray a)) => a
      | Some (_, (_, x)) => [x]
      | None => []
      end
  | _ => []
  end.

#[export] Instance host : Host := {|
  ctor := string;
  fields := list jsval;
  ExchangeService := unit;
  instanceof c1 c2 := String.eqb c1 c2;
  new_fields _ := [];
  LoadFromXmlJsObject _ p _ st := (st ++ [p], 1%nat);
  GetJsObjectTypeName := type_hint;
  ReadAsArray := read_as_array;
  CreateComplexProperty name :=
    if String.eqb name "Unknown" then None else Some name;
  CreateDefaultComplexProperty := Some "Item"%string;
  GetCollectionItemXmlElementName _ := Some "Item"%string;
  DebugLogEnabled := false;
|}.

(** The same surroundings with the diagnostic log switched on. *)
Definition verbose : Host := {|
  ctor := string;
  fields := list jsval;
  ExchangeService := unit;
  instanceof c1 c2 := String.eqb c1 c2;
  new_fields _ := [];
  LoadFromXmlJsObject _ p _ st := (st ++ [p], 1%nat);
  GetJsObjectTypeName := type_hint;
  ReadAsArray := read_as_array;
  CreateComplexProperty name :=
    if String.eqb name "Unknown" then None else Some name;
  CreateDefaultComplexProperty := Some "Item"%string;
  GetCollectionItemXmlElementName _ := Some "Item"%string;
  DebugLogEnabled := true;
|}.

(** Runs a computation for its world. *)
Definition exec {A} (m : Eff A) (w : world) : world := (m w).2.

(** One element of class ["Item"], constructed and not yet added. *)
Definition w1 : world := exec (new "Item"%string) empty_world.

(** The same with the element added: a pending addition. *)
Definition w2 : world := exec (InternalAdd 0%nat false) w1.

(** The same world where the log is on. *)
Definition w2_verbose : @world verbose :=
  (@InternalAdd verbose 0%nat false
     (@new verbose "Item"%string (@empty_world verbose)).2).2.

(** Two elements of class ["Item"], added and then synchronized. *)
Definition w3 : world :=
  exec (new "Item"%string;; new "Item"%string;;
        InternalAdd 0%nat false;; InternalAdd 1%nat false;; ClearChangeLog)
       empty_world.

(** A payload entry with no type hint: it resolves to the default class. *)
Definition renamed : jsval := JObject [("Name"%string, JString "new")].

(** A client constructs an element, adds it, removes it, and then changes
    it. *)
Definition after_stale_change : world :=
  perform (op_notify 0%nat)
    (perform (op_Remove 0%nat)
       (perform (op_Add 0%nat)
          (perform (op_new "Item"%string) empty_world))).

End Demo.

(** ** Facts about the array helpers *)

Section Arrays.
Context {A : Type} `{EqDecision A}.
Implicit Types (x y : A) (l : list A).

Lemma indexOf_lower l x : -1 ≤ indexOf l x.
Proof.
  induction l as [|y l IH]; simpl; [lia|].
  case_decide; [lia|]. destruct (Z.ltb_spec (indexOf l x) 0); lia.
Qed.

Lemma indexOf_negative l x : indexOf l x < 0 ↔ x ∉ l.
Proof.
  induction l as [|y l IH]; simpl.
  - split; [intros _ ?%elem_of_nil; done | lia].
  - rewrite not_elem_of_cons. pose proof (indexOf_lower l x).
    case_decide as Hy.
    + subst. split; [lia | intros [? _]; done].
    + destruct (Z.ltb_spec (indexOf l x) 0) as [Hlt|Hge].
      * split; [intros _|lia]. split; [congruence | by apply IH].
      * split; [lia|]. intros [_ Hn]. apply IH in Hn. lia.
Qed.

Lemma indexOf_present l x : (0 <=? indexOf l x) = bool_decide (x ∈ l).
Proof.
  case_bool_decide as Hin.
  - apply Z.leb_le. destruct (Z.lt_ge_cases (indexOf l x) 0) as [Hlt|]; [|done].
    by apply indexOf_negative in Hlt.
  - apply Z.leb_gt. by apply indexOf_negative.
Qed.

Lemma indexOf_absent_negb l x : (indexOf l x <? 0) = negb (bool_decide (x ∈ l)).
Proof.
  rewrite <- indexOf_present.
  destruct (Z.ltb_spec (indexOf l x) 0), (Z.leb_spec 0 (indexOf l x)); simpl; lia.
Qed.

Lemma delete_indexOf l x :
  x ∈ l → delete (Z.to_nat (indexOf l x)) l = remove_first x l.
Proof.
  induction l as [|y l IH]; [by intros ?%elem_of_nil|]. simpl.
  case_decide as Hy; [done|]. intros [?|Hin]%elem_of_cons; [congruence|].
  assert (0 ≤ indexOf l x).
  { apply Z.leb_le. rewrite indexOf_present. by apply bool_decide_eq_true. }
  destruct (Z.ltb_spec (indexOf l x) 0); [lia|].
  replace (Z.to_nat (indexOf l x + 1)) with (S (Z.to_nat (indexOf l x))) by lia.
  simpl. by rewrite IH.
Qed.

Lemma remove_first_absent l x : x ∉ l → remove_first x l = l.
Proof.
  induction l as [|y l IH]; [done|]. rewrite not_elem_of_cons. intros [? ?].
  simpl. rewrite decide_False by done. by rewrite IH.
Qed.

(** [RemoveEntry] reports membership and leaves the array without the first
    occurrence. *)
Lemma RemoveEntry_spec l x :
  RemoveEntry l x = (bool_decide (x ∈ l), remove_first x l).
Proof.
  unfold RemoveEntry. rewrite indexOf_present. case_bool_decide as Hin.
  - by rewrite delete_indexOf.
  - by rewrite remove_first_absent.
Qed.

Lemma remove_first_subseteq l x : remove_first x l ⊆ l.
Proof.
  induction l as [|y l IH]; [done|]. simpl. intros z. case_decide.
  - by right.
  - intros [->|Hz]%elem_of_cons; [left | right; by apply IH].
Qed.

Lemma remove_first_NoDup l x : NoDup l → NoDup (remove_first x l).
Proof.
  induction 1 as [|y l Hy Hl IH]; simpl; [constructor|].
  case_decide; [done|]. constructor; [|done].
  intros Hin. apply Hy. by eapply remove_first_subseteq.
Qed.

Lemma remove_first_purges l x : NoDup l → x ∉ remove_first x l.
Proof.
  induction 1 as [|y l Hy Hl IH]; simpl; [by intros ?%elem_of_nil|].
  case_decide; [by subst|]. rewrite not_elem_of_cons. by split.
Qed.

Lemma remove_first_other l x y : y ≠ x → y ∈ l → y ∈ remove_first x l.
Proof.
  intros Hne. induction l as [|z l IH]; [done|]. simpl.
  intros [->|Hin]%elem_of_cons.
  - rewrite decide_False by done. left.
  - case_decide; [done|]. right. by apply IH.
Qed.

End Arrays.


(** ** Mutation: what one call does *)

(** Unfolds the monad and the field operations down to worlds. *)
Ltac eff :=
  unfold mbind, mret, mthrow, Eff_bind, Eff_ret, Eff_throw, gets, modify, push,
    RemoveEntry_of, Changed, Assert, set_OnChange, bind_ItemChanged, complete;
  simpl.

(** Unfolds the field setters. *)
Ltac setters :=
  unfold set_heap, set_binds, set_items, set_addedItems, set_modifiedItems,
    set_removedItems, set_changed, set_console;
  simpl.

Section Mutation.
Context `{Host}.
Implicit Types (w : world) (x : ref).

Lemma InternalRemove_Some w x :
  InternalRemove (Some x) w =
    if bool_decide (x ∈ items w) then (Normal true, removed_from x w)
    else (Normal false, w).
Proof.
  destruct w as [h b its ad mo re ch co].
  unfold InternalRemove, removed_from. eff.
  rewrite !RemoveEntry_spec. simpl.
  case_bool_decide as Hin; simpl.
  - assert (Halter : ∀ l : list element,
      alter (λ e, Element (constructor e)
                    (RemoveEntry (OnChange e) ItemChanged_method).2 (state e)) x l
      = alter (λ e, Element (constructor e)
                      (remove_first ItemChanged_method (OnChange e)) (state e)) x l).
    { intros l. apply list_alter_ext; [|done..]. intros e _.
      by rewrite RemoveEntry_spec. }
    rewrite indexOf_absent_negb. case_bool_decide as Had; simpl; setters;
      rewrite !RemoveEntry_spec, Halter; done.
  - setters. by rewrite remove_first_absent.
Qed.

Lemma InternalRemove_None w :
  InternalRemove None w =
    (Normal false,
     reported [("ComplexPropertyCollection.InternalRemove"%string,
                "complexProperty is null"%string)] w).
Proof. unfold InternalRemove, reported. eff. by destruct DebugLogEnabled. Qed.

Lemma InternalAdd_eq w x loading :
  InternalAdd x loading w =
    if bool_decide (x ∈ items w) then (Normal tt, w)
    else
      (Normal tt,
       World
         (alter (λ e, Element (constructor e)
                        (OnChange e ++ [ItemChanged_bound (binds w)]) (state e))
                x (heap w))
         (S (binds w))
         (items w ++ [x])
         (if loading then addedItems w else addedItems w ++ [x])
         (modifiedItems w)
         (if loading then removedItems w else remove_first x (removedItems w))
         (S (changed w))
         (console w)).
Proof.
  destruct w as [h b its ad mo re ch co].
  unfold InternalAdd. eff. rewrite indexOf_absent_negb.
  case_bool_decide as Hin; simpl; [done|].
  destruct loading; simpl; setters; [done|]. by rewrite RemoveEntry_spec.
Qed.

(** C1.  [InternalRemove(x)] on an element [x]: when [x] is not in the
    sequence it returns [false] and changes nothing.  When [x] is in the
    sequence it returns [true], takes [x] out of the sequence, and: if [x]
    was in [addedItems] it takes it out of there and leaves [removedItems]
    as it was; otherwise it appends [x] to [removedItems]; either way it
    takes [x] out of [modifiedItems] and emits one "changed" signal.  Where
    an array held [x] at most once (as in every reachable world), [x] is
    gone from it. *)
Theorem InternalRemove_effects w x :
  (x ∉ items w → InternalRemove (Some x) w = (Normal false, w)) ∧
  (x ∈ items w →
     ∃ w', InternalRemove (Some x) w = (Normal true, w') ∧
       items w' = remove_first x (items w) ∧
       (x ∈ addedItems w →
          addedItems w' = remove_first x (addedItems w) ∧
          removedItems w' = removedItems w) ∧
       (x ∉ addedItems w →
          addedItems w' = addedItems w ∧
          removedItems w' = removedItems w ++ [x]) ∧
       modifiedItems w' = remove_first x (modifiedItems w) ∧
       changed w' = S (changed w) ∧
       (NoDup (items w) → x ∉ items w') ∧
       (NoDup (addedItems w) → x ∉ addedItems w') ∧
       (NoDup (modifiedItems w) → x ∉ modifiedItems w')).
Proof.
  rewrite InternalRemove_Some. split; intros Hin.
  - by rewrite bool_decide_eq_false_2.
  - rewrite bool_decide_eq_true_2 by done. eexists; split; [done|].
    unfold removed_from; simpl.
    repeat split.
    + by rewrite bool_decide_eq_true_2.
    + by rewrite bool_decide_eq_true_2.
    + by rewrite bool_decide_eq_false_2.
    + by rewrite bool_decide_eq_false_2.
    + apply remove_first_purges.
    + intros Hnd. case_bool_decide as Had; [by apply remove_first_purges | done].
    + apply remove_first_purges.
Qed.

(** C4.  [InternalAdd(x)] for an [x] that is already in the sequence, with
    or without the loading flag: the call returns with the world as it was,
    so the sequence, the three change arrays and the count of "changed"
    signals are what they were. *)
Theorem InternalAdd_member_noop w x loading :
  x ∈ items w → InternalAdd x loading w = (Normal tt, w).
Proof. intros Hin. rewrite InternalAdd_eq. by rewrite bool_decide_eq_true_2. Qed.

Lemma _getItem_keeps_world w index : (_getItem index w).2 = w.
Proof.
  unfold _getItem. eff. destruct (_ || _); [done|]. by destruct (array_get _ _).
Qed.

(** C10.  [ClearChangeLog()] and [RemoveFromChangeLog(x)] return normally,
    leave the sequence (and the element objects) as they were and emit no
    "changed" signal; they only touch the three change arrays.  The queries
    and the serialization answers leave the whole world as it was.  What is
    left to emit the signal is [InternalAdd], [InternalRemove], what is
    built on them, and [ItemChanged]. *)
Theorem change_log_operations_frame w x :
  (∃ w', ClearChangeLog w = (Normal tt, w') ∧
     items w' = items w ∧ changed w' = changed w ∧ heap w' = heap w ∧
     addedItems w' = [] ∧ modifiedItems w' = [] ∧ removedItems w' = []) ∧
  (∃ w', RemoveFromChangeLog x w = (Normal tt, w') ∧
     items w' = items w ∧ changed w' = changed w ∧ heap w' = heap w ∧
     addedItems w' = remove_first x (addedItems w) ∧
     modifiedItems w' = remove_first x (modifiedItems w) ∧
     removedItems w' = remove_first x (removedItems w)) ∧
  (Contains x w).2 = w ∧ (IndexOf x w).2 = w ∧ (ShouldWriteToRequest w).2 = w ∧
  (∀ index, (_getItem index w).2 = w) ∧
  (∀ writer ewsObject propertyDefinition,
     (WriteSetUpdateToXml writer ewsObject propertyDefinition w).2 = w ∧
     (WriteDeleteUpdateToXml writer ewsObject w).2 = w).
Proof.
  split; [|split; [|repeat split]].
  - eexists; split; [reflexivity|]. done.
  - eexists; split; [reflexivity|]. simpl. by rewrite !RemoveEntry_spec.
  - intros index. apply _getItem_keeps_world.
  - unfold WriteSetUpdateToXml. eff. by destruct (_ =? _).
Qed.

(** C5.  [ShouldWriteToRequest()] answers [false] exactly when [Count] is 0.
    [WriteSetUpdateToXml] answers [true] exactly when [Count] is 0; it then
    has written the start of the owner's delete-field element in the Types
    namespace, the property definition's schema identity and the end of the
    element, and nothing else; otherwise it has written nothing.  Neither
    changes the world. *)
Theorem serialization_of_empty_collection w writer ewsObject propertyDefinition :
  (∃ b, ShouldWriteToRequest w = (Normal b, w) ∧ (b = false ↔ Count w = 0)) ∧
  (∃ handled writer',
     WriteSetUpdateToXml writer ewsObject propertyDefinition w
       = (Normal (handled, writer'), w) ∧
     (handled = true ↔ Count w = 0) ∧
     (Count w = 0 →
        writer' = writer
          ++ [StartElement Types (GetDeleteFieldXmlElementName ewsObject)]
          ++ schema_identity propertyDefinition ++ [EndElement]) ∧
     (Count w ≠ 0 → writer' = writer)).
Proof.
  split.
  - eexists; split; [reflexivity|]. rewrite Z.ltb_ge. unfold Count. lia.
  - unfold WriteSetUpdateToXml. eff. destruct (Z.eqb_spec (Count w) 0) as [E|E].
    + do 2 eexists; split; [reflexivity|]. repeat split; try done.
      intros _. unfold WriteEndElement, PropertyDefinition_WriteToXml, WriteStartElement.
      by rewrite <- !app_assoc.
    + do 2 eexists; split; [reflexivity|]. repeat split; done.
Qed.

Lemma array_get_lookup {A} (l : list A) (index : Z) :
  0 ≤ index → array_get l index = l !! Z.to_nat index.
Proof. intros Hi. unfold array_get. by destruct (Z.ltb_spec index 0); [lia|]. Qed.

Lemma array_get_outside {A} (l : list A) (index : Z) :
  ¬ (0 ≤ index < Z.of_nat (length l)) → array_get l index = None.
Proof.
  intros Hi. unfold array_get. destruct (Z.ltb_spec index 0); [done|].
  apply lookup_ge_None. lia.
Qed.

(** The two reports an index outside the range hands to the diagnostic
    log. *)
Definition out_of_range_reports : list (string * string) :=
  [("ComplexPropertyCollection.InternalRemoveAt", "index is out of range.");
   ("ComplexPropertyCollection.InternalRemove", "complexProperty is null")]%string.

Lemma InternalRemoveAt_outside w index :
  ¬ (0 ≤ index < Count w) →
  InternalRemoveAt index w = (Normal tt, reported out_of_range_reports w).
Proof.
  unfold Count. intros Hi. unfold InternalRemoveAt. eff. unfold Count.
  replace ((0 <=? index) && (index <? Z.of_nat (length (items w)))) with false
    by (symmetry; apply andb_false_iff; rewrite Z.leb_gt, Z.ltb_ge; lia).
  simpl. unfold reported. destruct DebugLogEnabled eqn:Hlog; simpl.
  - rewrite array_get_outside by done. rewrite InternalRemove_None.
    unfold reported. rewrite Hlog. setters. by rewrite <- app_assoc.
  - rewrite array_get_outside by done. rewrite InternalRemove_None.
    unfold reported. by rewrite Hlog.
Qed.

Lemma InternalRemoveAt_inside w index x :
  0 ≤ index → items w !! Z.to_nat index = Some x →
  InternalRemoveAt index w = (Normal tt, removed_from x w).
Proof.
  intros Hi Hx. apply lookup_lt_Some in Hx as Hlt.
  assert (Hin : x ∈ items w) by (apply list_elem_of_lookup; eauto).
  unfold InternalRemoveAt. eff. unfold Count.
  replace ((0 <=? index) && (index <? Z.of_nat (length (items w)))) with true
    by (symmetry; apply andb_true_iff; rewrite Z.leb_le, Z.ltb_lt; lia).
  simpl. rewrite array_get_lookup, Hx by lia.
  by rewrite InternalRemove_Some, bool_decide_eq_true_2.
Qed.

(** [InternalRemoveAt(index)] from every world.  For an index outside
    [0, Count) it raises nothing: its range assertion fails, and so does
    the one [InternalRemove] makes about its [undefined] argument; both go
    to the diagnostic log, which writes them to the console only when it is
    enabled.  The call returns and leaves the sequence, the three change
    arrays, the element objects and the signal count as they were.  For an
    index inside the range it does what [InternalRemove] does on the element
    at that position, which is then a member, so that call returns
    [true]. *)
Theorem InternalRemoveAt_effects w index :
  (¬ (0 ≤ index < Count w) →
     ∃ w', InternalRemoveAt index w = (Normal tt, w') ∧
       items w' = items w ∧ addedItems w' = addedItems w ∧
       modifiedItems w' = modifiedItems w ∧ removedItems w' = removedItems w ∧
       heap w' = heap w ∧ changed w' = changed w ∧
       console w' = (if DebugLogEnabled then console w ++ out_of_range_reports
                     else console w)) ∧
  (0 ≤ index < Count w →
     ∃ x w', items w !! Z.to_nat index = Some x ∧
       InternalRemove (Some x) w = (Normal true, w') ∧
       InternalRemoveAt index w = (Normal tt, w')).
Proof.
  split; intros Hi.
  - rewrite InternalRemoveAt_outside by done. eexists; split; [done|].
    unfold reported. by destruct DebugLogEnabled.
  - unfold Count in Hi.
    destruct (lookup_lt_is_Some_2 (items w) (Z.to_nat index)) as [x Hx]; [lia|].
    exists x, (removed_from x w). split; [done|]. split.
    + rewrite InternalRemove_Some, bool_decide_eq_true_2; [done|].
      apply list_elem_of_lookup; eauto.
    + apply InternalRemoveAt_inside; [lia | done].
Qed.

(** [InternalRemoveAt] always returns. *)
Lemma InternalRemoveAt_returns w index : (InternalRemoveAt index w).1 = Normal tt.
Proof.
  destruct (decide (0 ≤ index < Count w)) as [Hi|Hi].
  - unfold Count in Hi.
    destruct (lookup_lt_is_Some_2 (items w) (Z.to_nat index)) as [x Hx]; [lia|].
    rewrite (InternalRemoveAt_inside w index x); [done | lia | done].
  - by rewrite InternalRemoveAt_outside.
Qed.

Lemma Remove_first_cons w x l :
  items w = x :: l →
  Remove_first w = (Normal true, removed_from x w) ∧
  InternalRemoveAt 0 w = (Normal tt, removed_from x w) ∧
  items (removed_from x w) = l.
Proof.
  intros Hits.
  assert (Hin : x ∈ items w) by (rewrite Hits; left).
  split; [|split].
  - unfold Remove_first. eff. rewrite Hits. simpl.
    by rewrite InternalRemove_Some, bool_decide_eq_true_2.
  - apply InternalRemoveAt_inside; [done|]. by rewrite Hits.
  - simpl. rewrite Hits. simpl. by rewrite decide_True.
Qed.

(** C8.  [InternalClear()] on a collection of N elements is N
    [InternalRemove] calls in a row, each on the element that is first at
    that time: it returns, with the very world those N calls leave (so the
    three change arrays are theirs, element by element), and the sequence
    is empty. *)
Theorem InternalClear_is_repeated_removal w :
  InternalClear w = Remove_first_times (length (items w)) w ∧
  (InternalClear w).1 = Normal tt ∧
  items (InternalClear w).2 = [].
Proof.
  apply (InternalClear_elim
           (λ w r, r = Remove_first_times (length (items w)) w ∧
                   r.1 = Normal tt ∧ items r.2 = [])); clear w.
  - intros w Hdone _. unfold Count in Hdone.
    destruct (items w) as [|x l] eqn:Hits; [|by apply Z.ltb_ge in Hdone].
    simpl. by rewrite Hits.
  - intros w [] w' Hturn Hmore (IH & IHr & IHe) _ _.
    unfold Count in Hmore.
    destruct (items w) as [|x l] eqn:Hits; [done|].
    destruct (Remove_first_cons w x l Hits) as (Hfirst & Hat & Hl).
    assert (w' = removed_from x w) as -> by congruence.
    split; [|done]. rewrite IH, Hl. simpl.
    unfold mbind, Eff_bind. by rewrite Hfirst.
  - intros w e w' Hturn _ _ _. pose proof (InternalRemoveAt_returns w 0) as Hr.
    by rewrite Hturn in Hr.
Qed.

End Mutation.

(** ** Ingestion *)

Section Ingestion.
Context `{Host}.
Implicit Types (w : world) (x : ref) (service : ExchangeService).

(** The body of the loop of [CreateFromXmlJsObjectCollection]. *)
Definition create_entry (service : ExchangeService) (jsonObject : jsval)
  : Eff unit :=
  let jsonProperty := jsonObject in
  match jsonProperty with
  | JNull => mret tt
  | _ =>
      match resolve jsonProperty with
      | Some c =>
          complexProperty ← new c;
          element_LoadFromXmlJsObject complexProperty jsonProperty service;;
          InternalAdd complexProperty true
      | None => mret tt
      end
  end.

(** *** The payloads that stand for a list of entries *)

(** [null] and [undefined] stand for none: reading their type hint
    throws. *)
Lemma collection_of_null : collection_of JNull = Throw TypeError.
Proof. done. Qed.

(** Every other payload stands for one. *)
Lemma collection_of_defined payload :
  payload ≠ JNull → ∃ entries, collection_of payload = Normal entries.
Proof.
  intros Hp. destruct payload as [|s|l|props]; [done|..]; unfold collection_of;
    simpl; try destruct (_ || _); eauto.
Qed.

Lemma collection_of_throws payload e :
  collection_of payload = Throw e → payload = JNull ∧ e = TypeError.
Proof.
  destruct payload as [|s|l|props]; unfold collection_of; simpl;
    try destruct (_ || _); try done.
  by intros [= <-].
Qed.

(** Both ingestion methods, past their common first part. *)
Lemma CreateFromXmlJsObjectCollection_eq payload service w :
  CreateFromXmlJsObjectCollection payload service w =
    match collection_of payload with
    | Normal entries => for_of entries (create_entry service) w
    | Throw e => (Throw e, w)
    end.
Proof.
  unfold CreateFromXmlJsObjectCollection. eff. by destruct (collection_of payload).
Qed.

Lemma UpdateFromXmlJsObjectCollection_eq payload service w :
  UpdateFromXmlJsObjectCollection payload service w =
    match collection_of payload with
    | Normal entries =>
        if bool_decide (Count w ≠ Z.of_nat (length entries)) then
          (Throw (ServiceLocalException (Some PropertyCollectionSizeMismatch)), w)
        else update_loop entries service 0 w
    | Throw e => (Throw e, w)
    end.
Proof.
  unfold UpdateFromXmlJsObjectCollection. eff.
  destruct (collection_of payload); [|done]. by case_bool_decide.
Qed.

(** Handed [null] or [undefined], both throw the [TypeError] of that read
    and leave the world as it was. *)
Lemma ingestion_of_null service w :
  CreateFromXmlJsObjectCollection JNull service w = (Throw TypeError, w) ∧
  UpdateFromXmlJsObjectCollection JNull service w = (Throw TypeError, w).
Proof. done. Qed.

(** A loop whose every turn returns and keeps an invariant returns and keeps
    it. *)
Lemma for_of_returns {A} (I : world → Prop) (xs : list A) (body : A → Eff unit) :
  (∀ a w, a ∈ xs → I w → ∃ w', body a w = (Normal tt, w') ∧ I w') →
  ∀ w, I w → ∃ w', for_of xs body w = (Normal tt, w') ∧ I w'.
Proof.
  induction xs as [|a xs IH]; intros Hbody w Hw; simpl.
  - by exists w.
  - destruct (Hbody a w) as (w1 & Ha & Hw1); [left | done |].
    destruct IH with (w := w1) as (w2 & Hxs & Hw2); [|done|].
    { intros b w' Hb. apply Hbody. by right. }
    exists w2. split; [|done]. unfold mbind, Eff_bind. by rewrite Ha.
Qed.

Lemma marks_only_refl w : marks_only w w.
Proof. by repeat split. Qed.

Lemma marks_only_trans w1 w2 w3 :
  marks_only w1 w2 → marks_only w2 w3 → marks_only w1 w3.
Proof. unfold marks_only. intuition congruence. Qed.

Lemma ItemChanged_eq x w :
  ItemChanged x w =
    (Normal tt,
     if bool_decide (x ∈ addedItems w) || bool_decide (x ∈ modifiedItems w) then w
     else set_changed S (set_modifiedItems (λ l, l ++ [x]) w)).
Proof.
  unfold ItemChanged. eff. rewrite indexOf_absent_negb.
  case_bool_decide; simpl; [done|]. rewrite indexOf_absent_negb.
  by case_bool_decide.
Qed.

Lemma ItemChanged_marks x w :
  ∃ w', ItemChanged x w = (Normal tt, w') ∧ marks_only w w'.
Proof.
  rewrite ItemChanged_eq. eexists; split; [done|].
  destruct (_ || _); [apply marks_only_refl | by repeat split].
Qed.

Lemma element_Changed_marks x w :
  delegates_bound w →
  ∃ w', element_Changed x w = (Normal tt, w') ∧ marks_only w w'.
Proof.
  intros Hb. unfold element_Changed. eff.
  destruct (heap w !! x) as [e|] eqn:He; [|exists w; split; [done | apply marks_only_refl]].
  assert (Hd : ItemChanged_method ∉ OnChange e).
  { unfold delegates_bound in Hb. rewrite Forall_forall in Hb.
    apply Hb. by eapply list_elem_of_lookup_2. }
  apply (for_of_returns (marks_only w)); [|apply marks_only_refl].
  intros d w1 Hin Hw1. destruct d as [|k]; [done|]. simpl.
  destruct (ItemChanged_marks x w1) as (w2 & -> & Hw2).
  exists w2. split; [done|]. by eapply marks_only_trans.
Qed.

Lemma marks_only_delegates_bound w w' :
  marks_only w w' → delegates_bound w → delegates_bound w'.
Proof. intros (Hh & _). unfold delegates_bound. by rewrite Hh. Qed.

Lemma delegates_bound_loaded w x p service :
  delegates_bound w → delegates_bound (set_heap (alter (loaded p service) x) w).
Proof.
  unfold delegates_bound. simpl. intros Hb.
  rewrite Forall_lookup in Hb |- *. intros i e.
  destruct (decide (i = x)) as [->|Hne].
  - rewrite list_lookup_alter_eq. destruct (heap w !! x) as [e0|] eqn:He; [|done].
    simpl. intros [= <-]. simpl. by eapply Hb.
  - rewrite list_lookup_alter_ne by done. apply Hb.
Qed.

(** An element's load: the element object takes its new state; of the
    collection, only [modifiedItems] and the signal count can change. *)
Lemma element_LoadFromXmlJsObject_spec x p service w :
  delegates_bound w →
  ∃ w', element_LoadFromXmlJsObject x p service w = (Normal tt, w') ∧
    marks_only (set_heap (alter (loaded p service) x) w) w'.
Proof.
  intros Hb. unfold element_LoadFromXmlJsObject. eff.
  destruct (heap w !! x) as [e|] eqn:He.
  - apply (for_of_returns
             (λ w', marks_only (set_heap (alter (loaded p service) x) w) w')).
    + intros [] w1 _ Hw1.
      destruct (element_Changed_marks x w1) as (w2 & -> & Hw2).
      { eapply marks_only_delegates_bound; [done|]. by apply delegates_bound_loaded. }
      exists w2. split; [done|]. by eapply marks_only_trans.
    + apply marks_only_refl.
  - exists w. split; [done|]. repeat split. simpl.
    apply list_eq. intros i. destruct (decide (i = x)) as [->|Hne].
    + by rewrite list_lookup_alter_eq, He.
    + by rewrite list_lookup_alter_ne.
Qed.

(** C3.  When an update payload stands for a list of element payloads (as
    every payload other than [null] and [undefined] does) and that list has
    a length other than [Count], [UpdateFromXmlJsObjectCollection] throws
    the size-mismatch [ServiceLocalException] and the world (the sequence,
    the element objects and their states, the three change arrays) is what
    it was before the call.  A [null] or [undefined] payload stands for no
    list: normalizing it throws before the lengths are compared. *)
Theorem UpdateFromXmlJsObjectCollection_size_mismatch w payload service entries :
  collection_of payload = Normal entries →
  Count w ≠ Z.of_nat (length entries) →
  UpdateFromXmlJsObjectCollection payload service w
    = (Throw (ServiceLocalException (Some PropertyCollectionSizeMismatch)), w).
Proof.
  intros Hentries Hne. rewrite UpdateFromXmlJsObjectCollection_eq, Hentries.
  by rewrite bool_decide_eq_true_2.
Qed.

(** *** Creation from a wire payload *)

Lemma element_Changed_no_delegates x e w :
  heap w !! x = Some e → OnChange e = [] → element_Changed x w = (Normal tt, w).
Proof. intros He Hd. unfold element_Changed. eff. by rewrite He, Hd. Qed.

Lemma for_of_replicate_fixed (m : Eff unit) (n : nat) w :
  m w = (Normal tt, w) → for_of (replicate n tt) (λ _, m) w = (Normal tt, w).
Proof.
  intros Hm. induction n as [|n IH]; [done|]. simpl.
  unfold mbind, Eff_bind. by rewrite Hm.
Qed.

Lemma element_LoadFromXmlJsObject_no_delegates x e p service w :
  heap w !! x = Some e → OnChange e = [] →
  element_LoadFromXmlJsObject x p service w
    = (Normal tt, set_heap (alter (loaded p service) x) w).
Proof.
  intros He Hd. unfold element_LoadFromXmlJsObject. eff. rewrite He.
  apply for_of_replicate_fixed.
  eapply (element_Changed_no_delegates _ (loaded p service e)); [|done].
  simpl. by rewrite list_lookup_alter_eq, He.
Qed.

(** One element created from a payload entry: it is appended unless the
    reference is already a member, and nothing is recorded in the change
    arrays. *)
Lemma create_element_keeps_change_log c p service w :
  ∃ w', (complexProperty ← new c;
         element_LoadFromXmlJsObject complexProperty p service;;
         InternalAdd complexProperty true) w = (Normal tt, w') ∧
    addedItems w' = addedItems w ∧ modifiedItems w' = modifiedItems w ∧
    removedItems w' = removedItems w ∧ items w `prefix_of` items w'.
Proof.
  unfold new. eff. unfold mbind, Eff_bind.
  erewrite element_LoadFromXmlJsObject_no_delegates; cycle 1.
  { simpl. by rewrite list_lookup_middle. }
  { done. }
  rewrite InternalAdd_eq. case_bool_decide.
  - eexists; split; [done|]. by repeat split.
  - eexists; split; [done|]. simpl. repeat split. by apply prefix_app_r.
Qed.

(** C7.  For every payload, [addedItems], [modifiedItems] and
    [removedItems] are after [CreateFromXmlJsObjectCollection] what they
    were before: each element it instantiates loads its state before it has
    any delegate, and is appended with the loading flag.  The sequence only
    grows at its end.  The call returns for every payload but [null] and
    [undefined], on which it throws the [TypeError] of normalization. *)
Theorem CreateFromXmlJsObjectCollection_keeps_change_log w payload service :
  ∃ w', CreateFromXmlJsObjectCollection payload service w
          = (match payload with JNull => Throw TypeError | _ => Normal tt end, w') ∧
    addedItems w' = addedItems w ∧ modifiedItems w' = modifiedItems w ∧
    removedItems w' = removedItems w ∧ items w `prefix_of` items w'.
Proof.
  assert (Hcases : payload = JNull ∨ payload ≠ JNull) by (destruct payload; auto).
  destruct Hcases as [->|Hp]; [by exists w|].
  destruct (collection_of_defined payload Hp) as [entries Hentries].
  rewrite CreateFromXmlJsObjectCollection_eq, Hentries.
  replace (match payload with JNull => Throw TypeError | _ => Normal tt end)
    with (Normal tt : completion unit) by (by destruct payload).
  apply (for_of_returns
           (λ w', addedItems w' = addedItems w ∧ modifiedItems w' = modifiedItems w ∧
                  removedItems w' = removedItems w ∧ items w `prefix_of` items w'));
    [|done].
  intros p w1 _ (Ha & Hm & Hr & Hi). unfold create_entry.
  assert (Hstay : ∃ w', (mret tt : Eff unit) w1 = (Normal tt, w') ∧
            addedItems w' = addedItems w ∧ modifiedItems w' = modifiedItems w ∧
            removedItems w' = removedItems w ∧ items w `prefix_of` items w')
    by by exists w1.
  assert (Hcreate : ∀ c, ∃ w',
            (complexProperty ← new c;
             element_LoadFromXmlJsObject complexProperty p service;;
             InternalAdd complexProperty true) w1 = (Normal tt, w') ∧
            addedItems w' = addedItems w ∧ modifiedItems w' = modifiedItems w ∧
            removedItems w' = removedItems w ∧ items w `prefix_of` items w').
  { intros c.
    destruct (create_element_keeps_change_log c p service w1)
      as (w2 & Hrun & Ha2 & Hm2 & Hr2 & Hi2).
    exists w2. split; [done|]. repeat split; try congruence.
    by etrans. }
  destruct p; [done|..]; destruct (resolve _); auto.
Qed.

(** *** Update from a wire payload *)

Lemma _getItem_member w (i : nat) x :
  items w !! i = Some x → _getItem (Z.of_nat i) w = (Normal x, w).
Proof.
  intros Hx. apply lookup_lt_Some in Hx as Hlt.
  unfold _getItem. eff. unfold Count.
  destruct (Z.ltb_spec (Z.of_nat i) 0); [lia|].
  destruct (Z.leb_spec (Z.of_nat (length (items w))) (Z.of_nat i)); [lia|].
  simpl. rewrite array_get_lookup, Nat2Z.id, Hx by lia. done.
Qed.

Lemma accepts_inv w i p :
  accepts w i p = true →
  p ≠ JNull ∧
  ∃ x el c, items w !! i = Some x ∧ heap w !! x = Some el ∧
    resolve p = Some c ∧ instanceof (constructor el) c = true.
Proof.
  unfold accepts. intros Hacc. split; [by intros ->|].
  destruct (resolve p) as [c|]; [|by destruct p].
  destruct (items w !! i) as [x|]; simpl in Hacc; [|by destruct p].
  destruct (heap w !! x) as [el|] eqn:Hel; [|by destruct p].
  exists x, el, c. by destruct p.
Qed.

Lemma accepts_stable w w' i q x p service :
  items w' = items w → heap w' = alter (loaded p service) x (heap w) →
  accepts w' i q = accepts w i q.
Proof.
  intros Hi Hh. unfold accepts. rewrite Hi, Hh.
  destruct (items w !! i) as [y|]; simpl; [|done].
  destruct (decide (y = x)) as [->|Hne].
  - rewrite list_lookup_alter_eq. by destruct (heap w !! x).
  - by rewrite list_lookup_alter_ne.
Qed.

(** One turn of the update loop on an entry it accepts. *)
Lemma update_turn w (i : nat) p x service :
  delegates_bound w → accepts w i p = true → items w !! i = Some x →
  ∃ w1, marks_only (set_heap (alter (loaded p service) x) w) w1 ∧
    ∀ rest, update_loop (p :: rest) service (Z.of_nat i) w
            = update_loop rest service (Z.of_nat (S i)) w1.
Proof.
  intros Hb Hacc Hx.
  destruct (accepts_inv _ _ _ Hacc) as (Hp & y & el & c & Hy & Hel & Hc & Hinst).
  assert (y = x) as -> by congruence.
  destruct (element_LoadFromXmlJsObject_spec x p service w Hb) as (w1 & Hload & Hw1).
  exists w1. split; [done|]. intros rest.
  assert (Hgo : (actualComplexProperty ← _getItem (Z.of_nat i);
                 h ← gets heap;
                 match resolve p, h !! actualComplexProperty with
                 | Some expected, Some actual =>
                     if instanceof (constructor actual) expected then
                       element_LoadFromXmlJsObject actualComplexProperty p service;;
                       update_loop rest service (Z.of_nat i + 1)
                     else
                       mthrow (ServiceLocalException
                                 (Some PropertyTypeIncompatibleWhenUpdatingCollection))
                 | _, _ =>
                     mthrow (ServiceLocalException
                               (Some PropertyTypeIncompatibleWhenUpdatingCollection))
                 end) w = update_loop rest service (Z.of_nat (S i)) w1).
  { unfold mbind at 1, Eff_bind at 1. rewrite (_getItem_member _ _ _ Hx).
    eff. rewrite Hc, Hel, Hinst. unfold mbind, Eff_bind. rewrite Hload.
    by replace (Z.of_nat i + 1) with (Z.of_nat (S i)) by lia. }
  by destruct p.
Qed.

(** The loop over entries it accepts: it returns, the sequence is as it
    was, and the elements at the positions passed have loaded. *)
Lemma update_loop_accepted service pre :
  ∀ (i : nat) w,
    delegates_bound w →
    (∀ j p, pre !! j = Some p → accepts w (i + j) p = true) →
    ∃ w', update_loop pre service (Z.of_nat i) w = (Normal tt, w') ∧
      items w' = items w ∧ delegates_bound w' ∧
      heap w' = loads service (drop i (items w)) pre (heap w) ∧
      ∀ j q, accepts w' j q = accepts w j q.
Proof.
  induction pre as [|p pre IH]; intros i w Hb Hacc.
  - exists w. repeat split; try done. unfold loads. by rewrite zip_with_nil_r.
  - pose proof (Hacc 0%nat p eq_refl) as Hp. rewrite Nat.add_0_r in Hp.
    destruct (accepts_inv _ _ _ Hp) as (_ & x & _ & _ & Hx & _).
    destruct (update_turn w i p x service Hb Hp Hx) as (w1 & Hw1 & Hturn).
    destruct Hw1 as (Hh & _ & Hi & _). simpl in Hh, Hi.
    assert (Hsame : ∀ j q, accepts w1 j q = accepts w j q).
    { intros j q. by apply (accepts_stable w w1 _ _ x p service). }
    destruct (IH (S i) w1) as (w' & Hrun & Hi' & Hb' & Hh' & Hsame').
    { unfold delegates_bound. rewrite Hh. by apply (delegates_bound_loaded w). }
    { intros j q Hq. rewrite Hsame.
      replace (S i + j)%nat with (i + S j)%nat by lia. by apply Hacc. }
    exists w'. rewrite Hturn. split; [done|]. split; [congruence|]. split; [done|].
    split; [|intros j q; by rewrite Hsame', Hsame].
    rewrite Hh', Hi, Hh. unfold loads.
    by rewrite (drop_S _ _ _ Hx).
Qed.

(** One turn of the update loop on an entry it does not accept. *)
Lemma update_turn_rejected w (i : nat) bad post service :
  (i < length (items w))%nat → accepts w i bad = false →
  update_loop (bad :: post) service (Z.of_nat i) w = (Throw (rejection bad), w).
Proof.
  intros Hlt Hacc.
  destruct (lookup_lt_is_Some_2 (items w) i Hlt) as [x Hx].
  unfold accepts in Hacc. rewrite Hx in Hacc. simpl in Hacc.
  destruct bad; [done|..];
    (cbn [update_loop rejection];
     unfold mbind at 1, Eff_bind at 1; rewrite (_getItem_member _ _ _ Hx); eff;
     destruct (resolve _) as [c|]; [|done];
     destruct (heap w !! x) as [el|]; [|done];
     by rewrite Hacc).
Qed.

Lemma update_loop_app service pre rest :
  ∀ index w,
    update_loop (pre ++ rest) service index w =
      match update_loop pre service index w with
      | (Normal _, w1) => update_loop rest service (index + Z.of_nat (length pre)) w1
      | (Throw e, w1) => (Throw e, w1)
      end.
Proof.
  induction pre as [|p pre IH]; intros index w.
  - simpl. by rewrite Z.add_0_r.
  - cbn [app update_loop length].
    destruct p; [done|..];
      (unfold mbind, Eff_bind, gets; simpl;
       destruct (_getItem index w) as [[x|e] w1]; [|done];
       destruct (resolve _) as [c|]; [|done];
       destruct (heap w1 !! x) as [el|]; [|done];
       destruct (instanceof _ _); [|done];
       destruct (element_LoadFromXmlJsObject _ _ _ _) as [[[]|e] w2]; [|done];
       rewrite IH; by replace (index + 1 + Z.of_nat (length pre))
         with (index + Z.pos (Pos.of_succ_nat (length pre))) by lia).
Qed.

Lemma loads_lookup_other service positions :
  ∀ entries h x, x ∉ positions → loads service positions entries h !! x = h !! x.
Proof.
  unfold loads. induction positions as [|y positions IH]; intros entries h x Hx; [done|].
  destruct entries as [|p entries]; [done|]. simpl.
  apply not_elem_of_cons in Hx as [Hne Hx].
  rewrite IH by done. by rewrite list_lookup_alter_ne.
Qed.

(** With no reference twice among the positions, the element at a position
    passed holds the state it loaded from the entry at that position. *)
Lemma loads_lookup service positions :
  ∀ entries h j x p el,
    NoDup positions → positions !! j = Some x → entries !! j = Some p →
    h !! x = Some el →
    loads service positions entries h !! x = Some (loaded p service el).
Proof.
  induction positions as [|y positions IH]; intros entries h j x p el Hnd Hx Hp Hel;
    [done|].
  destruct entries as [|q entries]; [done|].
  apply NoDup_cons in Hnd as [Hy Hnd].
  destruct j as [|j]; simpl in Hx, Hp.
  - simplify_eq/=.
    change (loads service (x :: positions) (p :: entries) h)
      with (loads service positions entries (alter (loaded p service) x h)).
    rewrite (loads_lookup_other service positions entries _ x Hy).
    by rewrite list_lookup_alter_eq, Hel.
  - assert (y ≠ x).
    { intros ->. apply Hy. by eapply list_elem_of_lookup_2. }
    change (loads service (y :: positions) (q :: entries) h)
      with (loads service positions entries (alter (loaded q service) y h)).
    eapply (IH entries _ j); try done.
    by rewrite list_lookup_alter_ne.
Qed.

(** C9.  [UpdateFromXmlJsObjectCollection] applies the entries in order and
    does not roll back.  When the payload stands for as many entries as the
    collection has elements, the entries before some position are accepted
    and the entry at that position is not (it is [null], or resolves to no
    class, or to one the element there is not an instance of), the call
    throws the [ServiceLocalException] of that entry, and the world it
    leaves has the elements before that position loaded from their
    entries. *)
Theorem UpdateFromXmlJsObjectCollection_no_rollback w payload service pre bad post :
  delegates_bound w →
  NoDup (items w) →
  collection_of payload = Normal (pre ++ bad :: post) →
  Count w = Z.of_nat (length (pre ++ bad :: post)) →
  (∀ j p, pre !! j = Some p → accepts w j p = true) →
  accepts w (length pre) bad = false →
  ∃ w', UpdateFromXmlJsObjectCollection payload service w
          = (Throw (rejection bad), w') ∧
    items w' = items w ∧
    heap w' = loads service (items w) pre (heap w) ∧
    ∀ j p x el,
      pre !! j = Some p → items w !! j = Some x → heap w !! x = Some el →
      heap w' !! x = Some (loaded p service el).
Proof.
  intros Hb Hnd Hpayload Hcount Hacc Hbad.
  destruct (update_loop_accepted service pre 0 w Hb Hacc)
    as (w1 & Hrun & Hi & Hb1 & Hh & Hsame).
  rewrite drop_0 in Hh.
  exists w1. split; [|split; [done|split; [done|]]].
  - rewrite UpdateFromXmlJsObjectCollection_eq, Hpayload.
    rewrite bool_decide_eq_false_2 by (intros Hne; by apply Hne).
    change (Z.of_nat 0) with 0 in Hrun.
    rewrite update_loop_app, Hrun. rewrite Z.add_0_l.
    apply update_turn_rejected.
    + rewrite Hi. unfold Count in Hcount. rewrite length_app in Hcount.
      simpl in Hcount. lia.
    + by rewrite Hsame.
  - intros j p x el Hp Hx Hel. rewrite Hh. by eapply loads_lookup.
Qed.

End Ingestion.

(** ** What every run keeps *)

Section Invariants.
Context `{Host}.
Implicit Types (w : world) (x : ref) (service : ExchangeService).

(** A loop keeps what each of its turns keeps, whether it returns or
    throws. *)
Lemma for_of_keeps {A} (I : world → Prop) (xs : list A) (body : A → Eff unit) :
  (∀ a w, I w → I (body a w).2) → ∀ w, I w → I (for_of xs body w).2.
Proof.
  intros Hbody. induction xs as [|a xs IH]; intros w Hw; [done|]. simpl.
  unfold mbind, Eff_bind. specialize (Hbody a w Hw).
  destruct (body a w) as [[[]|e] w1]; simpl in *; auto.
Qed.

Lemma well_formed_empty : well_formed empty_world.
Proof.
  repeat split; try apply NoDup_nil_2; try apply Forall_nil_2; done.
Qed.

Lemma well_formed_reported w reports :
  well_formed w → well_formed (reported reports w).
Proof. unfold reported. by destruct DebugLogEnabled. Qed.

Lemma subscribed_alter w x y (f : element → element) :
  (∀ e, OnChange e ≠ [] → OnChange (f e) ≠ []) →
  subscribed w y → subscribed (set_heap (alter f x) w) y.
Proof.
  intros Hf (e & He & Hd). unfold subscribed. simpl.
  destruct (decide (x = y)) as [->|Hne].
  - exists (f e). rewrite list_lookup_alter_eq, He. split; [done | by apply Hf].
  - exists e. by rewrite list_lookup_alter_ne.
Qed.

Lemma well_formed_alter w x (f : element → element) :
  (∀ e, ItemChanged_method ∉ OnChange e → ItemChanged_method ∉ OnChange (f e)) →
  (∀ e, OnChange e ≠ [] → OnChange (f e) ≠ []) →
  well_formed w → well_formed (set_heap (alter f x) w).
Proof.
  intros Hf Hf' (Hb & Hi & Ha & Hm & Hai & Hobj & Hsub).
  split; [|split; [done|split; [done|split; [done|split; [done|split]]]]]; simpl.
  - apply Forall_alter; [done|]. intros e _. apply Hf.
  - by rewrite length_alter.
  - apply (Forall_impl _ _ _ Hsub). intros y. by apply subscribed_alter.
Qed.

Lemma well_formed_new c w : well_formed w → well_formed (new c w).2.
Proof.
  intros (Hb & Hi & Ha & Hm & Hai & Hobj & Hsub).
  split; [|split; [done|split; [done|split; [done|split; [done|split]]]]]; simpl.
  - apply Forall_app. split; [done|]. apply Forall_singleton. apply not_elem_of_nil.
  - apply (Forall_impl _ _ _ Hobj). intros y Hy. rewrite length_app. lia.
  - apply (Forall_impl _ _ _ Hsub). intros y (e & He & Hd).
    exists e. split; [|done]. simpl. by apply lookup_app_l_Some.
Qed.

Lemma well_formed_InternalAdd x loading w :
  (x < length (heap w))%nat → well_formed w →
  well_formed (InternalAdd x loading w).2.
Proof.
  intros Hx Hw. rewrite InternalAdd_eq. case_bool_decide as Hin; [done|].
  destruct Hw as (Hb & Hi & Ha & Hm & Hai & Hobj & Hsub).
  assert (Hgrow : ∀ e : element,
            OnChange e ++ [ItemChanged_bound (binds w)] ≠ []).
  { intros e Hnil. by apply app_eq_nil in Hnil as [_ ?]. }
  split; [|split; [|split; [|split; [done|split; [|split]]]]]; simpl.
  - apply Forall_alter; [done|]. intros e _ He. simpl.
    apply not_elem_of_app. split; [done|].
    apply not_elem_of_cons. split; [done | apply not_elem_of_nil].
  - apply NoDup_app. repeat split; [done| |apply NoDup_singleton].
    intros y Hy ->%list_elem_of_singleton. done.
  - destruct loading; [done|].
    apply NoDup_app. repeat split; [done| |apply NoDup_singleton].
    intros y Hy ->%list_elem_of_singleton. by apply Hin, Hai.
  - intros y Hy. apply elem_of_app.
    destruct loading; [left; by apply Hai|].
    apply elem_of_app in Hy as [Hy|Hy]; [left; by apply Hai | by right].
  - rewrite length_alter. apply Forall_app. split; [done|]. by apply Forall_singleton.
  - apply Forall_app. split.
    + apply (Forall_impl _ _ _ Hsub). intros y Hy.
      apply (subscribed_alter w x y); [|done]. intros e _. apply Hgrow.
    + apply Forall_singleton.
      destruct (lookup_lt_is_Some_2 (heap w) x Hx) as [e He].
      eexists. simpl. rewrite list_lookup_alter_eq, He. simpl.
      split; [done|]. apply Hgrow.
Qed.

Lemma well_formed_InternalRemove v w :
  well_formed w → well_formed (InternalRemove v w).2.
Proof.
  intros Hw.
  destruct v as [x|]; [|rewrite InternalRemove_None; by apply well_formed_reported].
  rewrite InternalRemove_Some. case_bool_decide as Hin; [|done].
  destruct Hw as (Hb & Hi & Ha & Hm & Hai & Hobj & Hsub).
  split; [|split; [|split; [|split; [|split; [|split]]]]]; simpl.
  - apply Forall_alter; [done|]. intros e _ He. simpl.
    intros Hd. by apply He, (remove_first_subseteq (OnChange e) ItemChanged_method).
  - by apply remove_first_NoDup.
  - case_bool_decide; [by apply remove_first_NoDup | done].
  - by apply remove_first_NoDup.
  - intros y Hy. case_bool_decide as Had.
    + apply remove_first_other.
      * intros ->. by apply (remove_first_purges (addedItems w) x) in Hy.
      * by apply Hai, (remove_first_subseteq (addedItems w) x).
    + apply remove_first_other; [by intros -> | by apply Hai].
  - rewrite length_alter. rewrite Forall_forall in Hobj |- *.
    intros y Hy. by apply Hobj, (remove_first_subseteq (items w) x).
  - rewrite Forall_forall in Hsub |- *. intros y Hy.
    assert (Hyw : y ∈ items w) by by apply (remove_first_subseteq (items w) x).
    assert (y ≠ x).
    { intros ->. by apply (remove_first_purges (items w) x) in Hy. }
    destruct (Hsub y Hyw) as (e & He & Hd). exists e. simpl.
    by rewrite list_lookup_alter_ne.
Qed.

Lemma well_formed_InternalRemoveAt index w :
  well_formed w → well_formed (InternalRemoveAt index w).2.
Proof.
  intros Hw. destruct (decide (0 ≤ index < Count w)) as [Hi|Hi].
  - unfold Count in Hi.
    destruct (lookup_lt_is_Some_2 (items w) (Z.to_nat index)) as [x Hx]; [lia|].
    rewrite (InternalRemoveAt_inside w index x) by (lia || done).
    pose proof (well_formed_InternalRemove (Some x) w Hw) as Hr.
    rewrite InternalRemove_Some, bool_decide_eq_true_2 in Hr; [done|].
    apply list_elem_of_lookup; eauto.
  - rewrite InternalRemoveAt_outside by done. by apply well_formed_reported.
Qed.

Lemma well_formed_InternalClear w : well_formed w → well_formed (InternalClear w).2.
Proof.
  apply (InternalClear_elim (λ w r, well_formed w → well_formed r.2)); clear w.
  - by intros w _ _.
  - intros w [] w' Hturn _ IH _ _ Hw. apply IH.
    pose proof (well_formed_InternalRemoveAt 0 w Hw) as Hw'. by rewrite Hturn in Hw'.
  - intros w e w' Hturn _ _ _ Hw.
    pose proof (well_formed_InternalRemoveAt 0 w Hw) as Hw'. by rewrite Hturn in Hw'.
Qed.

Lemma well_formed_ItemChanged x w : well_formed w → well_formed (ItemChanged x w).2.
Proof.
  intros Hw. rewrite ItemChanged_eq. simpl.
  destruct (bool_decide (x ∈ addedItems w)); simpl; [done|].
  case_bool_decide as Hm; [done|].
  destruct Hw as (Hb & Hi & Ha & Hmo & Hai & Hobj & Hsub).
  split; [done|split; [done|split; [done|split; [|done]]]]. simpl.
  apply NoDup_app. repeat split; [done| |apply NoDup_singleton].
  by intros y Hy ->%list_elem_of_singleton.
Qed.

Lemma well_formed_element_Changed x w :
  well_formed w → well_formed (element_Changed x w).2.
Proof.
  intros Hw. unfold element_Changed. eff. destruct (heap w !! x) as [e|]; [|done].
  apply for_of_keeps; [|done]. intros [|k] w1 Hw1; [done|].
  by apply well_formed_ItemChanged.
Qed.

Lemma well_formed_element_LoadFromXmlJsObject x p service w :
  well_formed w → well_formed (element_LoadFromXmlJsObject x p service w).2.
Proof.
  intros Hw. unfold element_LoadFromXmlJsObject. eff.
  destruct (heap w !! x) as [e|]; [|done].
  apply for_of_keeps.
  - intros _ w1. apply well_formed_element_Changed.
  - by apply well_formed_alter.
Qed.

Lemma element_Changed_heap x w : heap (element_Changed x w).2 = heap w.
Proof.
  unfold element_Changed. eff. destruct (heap w !! x) as [e|]; [|done].
  apply (for_of_keeps (λ w', heap w' = heap w)); [|done].
  intros [|k] w1 Hw1; [done|]. simpl. rewrite ItemChanged_eq. simpl.
  by destruct (_ || _).
Qed.

Lemma element_LoadFromXmlJsObject_heap_length x p service w :
  length (heap (element_LoadFromXmlJsObject x p service w).2) = length (heap w).
Proof.
  unfold element_LoadFromXmlJsObject. eff. destruct (heap w !! x) as [e|]; [|done].
  apply (for_of_keeps (λ w', length (heap w') = length (heap w))).
  - intros _ w1 Hw1. by rewrite element_Changed_heap.
  - simpl. by rewrite length_alter.
Qed.

Lemma well_formed_CreateFromXmlJsObjectCollection payload service w :
  well_formed w →
  well_formed (CreateFromXmlJsObjectCollection payload service w).2.
Proof.
  rewrite CreateFromXmlJsObjectCollection_eq.
  destruct (collection_of payload) as [entries|e]; [|done].
  apply for_of_keeps. clear w. intros p w Hw. unfold create_entry.
  assert (Hcreate : ∀ c,
            well_formed ((complexProperty ← new c;
                          element_LoadFromXmlJsObject complexProperty p service;;
                          InternalAdd complexProperty true) w).2).
  { intros c. pose proof (well_formed_new c w Hw) as Hnew.
    unfold new in *. eff. simpl in Hnew. unfold mbind, Eff_bind.
    match goal with
    | |- context [element_LoadFromXmlJsObject ?x p service ?w1] =>
        pose proof (well_formed_element_LoadFromXmlJsObject x p service w1 Hnew) as Hl;
        pose proof (element_LoadFromXmlJsObject_heap_length x p service w1) as Hlen;
        destruct (element_LoadFromXmlJsObject x p service w1) as [[[]|e] w2]; [|done]
    end.
    apply well_formed_InternalAdd; [|done].
    simpl in Hlen. rewrite Hlen, length_app. simpl. lia. }
  destruct p; [done|..]; destruct (resolve _); auto.
Qed.

Lemma well_formed_update_loop service collection :
  ∀ index w, well_formed w → well_formed (update_loop collection service index w).2.
Proof.
  induction collection as [|p collection IH]; intros index w Hw; [done|].
  assert (Hgo : well_formed
            ((actualComplexProperty ← _getItem index;
              h ← gets heap;
              match resolve p, h !! actualComplexProperty with
              | Some expected, Some actual =>
                  if instanceof (constructor actual) expected then
                    element_LoadFromXmlJsObject actualComplexProperty p service;;
                    update_loop collection service (index + 1)
                  else
                    mthrow (ServiceLocalException
                              (Some PropertyTypeIncompatibleWhenUpdatingCollection))
              | _, _ =>
                  mthrow (ServiceLocalException
                            (Some PropertyTypeIncompatibleWhenUpdatingCollection))
              end) w).2).
  { unfold mbind at 1, Eff_bind at 1.
    pose proof (_getItem_keeps_world w index) as Hget.
    destruct (_getItem index w) as [[x|e] w1]; simpl in Hget; subst w1; [|done].
    eff. destruct (resolve p) as [c|]; [|done].
    destruct (heap w !! x) as [el|]; [|done].
    destruct (instanceof _ _); [|done].
    unfold mbind, Eff_bind.
    pose proof (well_formed_element_LoadFromXmlJsObject x p service w Hw) as Hl.
    destruct (element_LoadFromXmlJsObject x p service w) as [[[]|e] w2]; [|done].
    by apply IH. }
  by destruct p.
Qed.

Lemma well_formed_UpdateFromXmlJsObjectCollection payload service w :
  well_formed w →
  well_formed (UpdateFromXmlJsObjectCollection payload service w).2.
Proof.
  intros Hw. rewrite UpdateFromXmlJsObjectCollection_eq.
  destruct (collection_of payload) as [entries|e]; [|done].
  case_bool_decide; [done|]. by apply well_formed_update_loop.
Qed.

Lemma well_formed_ClearChangeLog w : well_formed w → well_formed (ClearChangeLog w).2.
Proof.
  intros (Hb & Hi & Ha & Hm & Hai & Hobj & Hsub).
  split; [done|split; [done|split; [|split; [|split; [|done]]]]]; simpl;
    try apply NoDup_nil_2.
  by intros y ?%elem_of_nil.
Qed.

Lemma well_formed_RemoveFromChangeLog x w :
  well_formed w → well_formed (RemoveFromChangeLog x w).2.
Proof.
  intros (Hb & Hi & Ha & Hm & Hai & Hobj & Hsub).
  split; [done|split; [done|split; [|split; [|split; [|done]]]]]; simpl;
    rewrite ?RemoveEntry_spec; simpl.
  - by apply remove_first_NoDup.
  - by apply remove_first_NoDup.
  - intros y Hy. by apply Hai, (remove_first_subseteq (addedItems w) x).
Qed.

(** Every world a client can reach is well formed: the hypotheses the
    statements above make on worlds hold of all of them. *)
Theorem reachable_well_formed w : reachable w → well_formed w.
Proof.
  induction 1 as [|o w Hr IH Hobj]; [apply well_formed_empty|].
  destruct o; simpl in *.
  - by apply well_formed_new.
  - by apply well_formed_InternalAdd.
  - by apply well_formed_InternalRemove.
  - by apply well_formed_InternalRemoveAt.
  - by apply well_formed_InternalClear.
  - by apply well_formed_CreateFromXmlJsObjectCollection.
  - by apply well_formed_UpdateFromXmlJsObjectCollection.
  - by apply well_formed_element_Changed.
  - by apply well_formed_ClearChangeLog.
  - by apply well_formed_RemoveFromChangeLog.
Qed.

(** [InternalRemove] leaves the delegates of the element it removes in
    place: it looks for the method itself among bound functions. *)
Lemma InternalRemove_keeps_subscription w x e :
  delegates_bound w → heap w !! x = Some e →
  heap (removed_from x w) !! x = Some e.
Proof.
  intros Hb He. simpl. rewrite list_lookup_alter_eq, He. simpl.
  unfold delegates_bound in Hb. rewrite Forall_lookup in Hb.
  rewrite remove_first_absent by (by eapply Hb). by destruct e.
Qed.

(** From any reachable world and any member [x] of its sequence: remove
    [x], then let [x] change.  The world is reachable, [x] is not in the
    sequence and [x] is in [modifiedItems]. *)
Theorem stale_subscription_marks_removed_element w x :
  reachable w → x ∈ items w →
  let w' := perform (op_notify x) (perform (op_Remove x) w) in
  reachable w' ∧ (x ∉ items w') ∧ x ∈ modifiedItems w'.
Proof.
  intros Hr Hin w'.
  pose proof (reachable_well_formed w Hr) as (Hb & Hi & Ha & Hm & Hai & Hobj & Hsub).
  assert (Hx : (x < length (heap w))%nat).
  { rewrite Forall_forall in Hobj. by apply Hobj. }
  split.
  { subst w'. apply reachable_perform; [by apply reachable_perform|].
    simpl. rewrite InternalRemove_Some, bool_decide_eq_true_2 by done.
    simpl. by rewrite length_alter. }
  subst w'. simpl. rewrite InternalRemove_Some, bool_decide_eq_true_2 by done. simpl.
  rewrite Forall_forall in Hsub. destruct (Hsub x Hin) as (e & He & Hd).
  pose proof (InternalRemove_keeps_subscription w x e Hb He) as He1.
  assert (Hi1 : x ∉ items (removed_from x w)) by (by apply remove_first_purges).
  assert (Ha1 : x ∉ addedItems (removed_from x w)).
  { simpl. case_bool_decide; [by apply remove_first_purges | done]. }
  assert (Hm1 : x ∉ modifiedItems (removed_from x w))
    by (by apply remove_first_purges).
  revert He1 Hi1 Ha1 Hm1. generalize (removed_from x w). intros w1 He1 Hi1 Ha1 Hm1.
  unfold element_Changed. eff. rewrite He1.
  destruct (OnChange e) as [|d ds] eqn:Hds; [done|].
  assert (d ≠ ItemChanged_method).
  { intros ->. unfold delegates_bound in Hb. rewrite Forall_lookup in Hb.
    apply (Hb x e He). rewrite Hds. left. }
  destruct d as [|k]; [done|]. cbn [for_of invoke].
  unfold mbind, Eff_bind. rewrite ItemChanged_eq.
  rewrite !bool_decide_eq_false_2 by done. cbn [orb].
  apply (for_of_keeps (λ w2, (x ∉ items w2) ∧ x ∈ modifiedItems w2)).
  - intros [|k'] w2 [Hi2 Hm2]; [done|]. simpl. rewrite ItemChanged_eq. simpl.
    destruct (_ || _); [done|]. simpl. split; [done|].
    apply elem_of_app. by left.
  - simpl. split; [done|]. apply elem_of_app. right. left.
Qed.

End Invariants.

(** ** The statements on concrete inputs *)

Section Concrete.
Import Demo.

(** Decides a closed decidable proposition by evaluation. *)
Ltac evaluate :=
  match goal with |- ?P => refine (bool_decide_unpack P _); vm_compute; exact I end.

Lemma InternalRemove_effects_witness :
  0%nat ∈ items w2 ∧
  ∃ w', InternalRemove (Some 0%nat) w2 = (Normal true, w') ∧
    items w' = [] ∧ addedItems w' = [] ∧ removedItems w' = [] ∧
    changed w' = 2%nat.
Proof.
  assert (Hin : 0%nat ∈ items w2) by evaluate.
  split; [done|].
  destruct (InternalRemove_effects w2 0%nat) as [_ Hmember].
  destruct (Hmember Hin) as (w' & Hrun & Hi & Hadded & _ & _ & Hch & _).
  destruct Hadded as [Ha Hr]; [evaluate|].
  exists w'. repeat split; done.
Defined.

Lemma InternalAdd_member_noop_witness :
  0%nat ∈ items w2 ∧ InternalAdd 0%nat false w2 = (Normal tt, w2).
Proof.
  assert (Hin : 0%nat ∈ items w2) by evaluate.
  split; [done|]. by apply InternalAdd_member_noop.
Defined.

Lemma serialization_of_empty_collection_witness :
  Count empty_world = 0 ∧
  (WriteSetUpdateToXml [] {| GetDeleteFieldXmlElementName := "DeleteItemField" |}
     {| schema_identity := [Text "item:Attachments"] |} empty_world).1
  = Normal (true, [StartElement Types "DeleteItemField"; Text "item:Attachments";
                   EndElement]).
Proof.
  split; [reflexivity|].
  destruct (serialization_of_empty_collection empty_world []
              {| GetDeleteFieldXmlElementName := "DeleteItemField" |}
              {| schema_identity := [Text "item:Attachments"] |})
    as (_ & handled & writer' & Hrun & Hhandled & Hwritten & _).
  rewrite Hrun. simpl.
  rewrite (Hwritten eq_refl). by rewrite (proj2 Hhandled eq_refl).
Defined.

Lemma InternalRemoveAt_effects_witness :
  (¬ (0 ≤ 7 < Count w2) ∧
   ∃ w', InternalRemoveAt 7 w2 = (Normal tt, w') ∧ items w' = items w2) ∧
  (0 ≤ 0 < Count w2 ∧
   ∃ w', InternalRemoveAt 0 w2 = (Normal tt, w') ∧
         InternalRemove (Some 0%nat) w2 = (Normal true, w')).
Proof.
  destruct (InternalRemoveAt_effects w2 7) as [Hout _].
  destruct (InternalRemoveAt_effects w2 0) as [_ Hin].
  assert (H7 : ¬ (0 ≤ 7 < Count w2)) by (vm_compute; intros [_ ?]; done).
  assert (H0 : 0 ≤ 0 < Count w2) by (vm_compute; split; [discriminate | done]).
  split.
  - split; [done|]. destruct (Hout H7) as (w' & Hrun & Hi & _). by exists w'.
  - split; [done|]. destruct (Hin H0) as (x & w' & Hx & Hr & Hrun).
    vm_compute in Hx. injection Hx as <-. by exists w'.
Defined.

(** Clearing two synchronized elements records both as removed, in order:
    the change arrays are those of two removals. *)
Example InternalClear_records_each_removal :
  InternalClear w3 = Remove_first_times 2 w3 ∧
  items (InternalClear w3).2 = [] ∧
  removedItems (InternalClear w3).2 = [0%nat; 1%nat] ∧
  changed (InternalClear w3).2 = (changed w3 + 2)%nat.
Proof. by vm_compute. Qed.

(** C6 on the code.  A collection of one element, and the indices 7 and -1,
    both outside [0, Count).  [_getItem], the position-based access, throws
    the out-of-range exception at each.  [InternalRemoveAt] throws nothing
    at either: its range check is an assertion, which does not stop the
    call, so it goes on to [InternalRemove(undefined)], returns, and the
    collection is as it was.  With the diagnostic log on, the same call
    leaves the two failed assertions on the console, the range one first,
    and still returns with the sequence as it was. *)
Theorem InternalRemoveAt_out_of_range_returns :
  Count w2 = 1 ∧
  _getItem 7 w2
    = (Throw (ArgumentOutOfRangeException "index" IndexIsOutOfRange), w2) ∧
  _getItem (-1) w2
    = (Throw (ArgumentOutOfRangeException "index" IndexIsOutOfRange), w2) ∧
  InternalRemoveAt 7 w2 = (Normal tt, w2) ∧
  InternalRemoveAt (-1) w2 = (Normal tt, w2) ∧
  (¬ ∃ e w', InternalRemoveAt 7 w2 = (Throw e, w')) ∧
  (@InternalRemoveAt verbose 7 w2_verbose).1 = Normal tt ∧
  items (@InternalRemoveAt verbose 7 w2_verbose).2 = [0%nat] ∧
  console (@InternalRemoveAt verbose 7 w2_verbose).2
    = [("ComplexPropertyCollection.InternalRemoveAt", "index is out of range.");
       ("ComplexPropertyCollection.InternalRemove", "complexProperty is null")]%string.
Proof.
  repeat split; try reflexivity.
  intros (e & w' & Hrun). vm_compute in Hrun. discriminate.
Qed.

(** Two elements, and a keyed payload that stands for one entry. *)
Lemma UpdateFromXmlJsObjectCollection_size_mismatch_witness :
  collection_of (JObject [("Item"%string, JObject [])]) = Normal [JObject []] ∧
  Count w3 ≠ Z.of_nat (length [JObject []]) ∧
  UpdateFromXmlJsObjectCollection (JObject [("Item"%string, JObject [])]) tt w3
    = (Throw (ServiceLocalException (Some PropertyCollectionSizeMismatch)), w3).
Proof.
  assert (Hentries : collection_of (JObject [("Item"%string, JObject [])])
                     = Normal [JObject []]) by reflexivity.
  assert (Hne : Count w3 ≠ Z.of_nat (length [JObject []]))
    by (vm_compute; discriminate).
  split; [done|]. split; [done|].
  by apply (UpdateFromXmlJsObjectCollection_size_mismatch
              w3 (JObject [("Item"%string, JObject [])]) tt [JObject []]).
Defined.

(** Two elements, a payload whose second entry is [null]: the call throws
    and the first element has loaded its entry. *)
Lemma UpdateFromXmlJsObjectCollection_no_rollback_witness :
  (delegates_bound w3 ∧ NoDup (items w3) ∧
   Count w3 = Z.of_nat (length ([renamed] ++ JNull :: [])) ∧
   accepts w3 0 renamed = true ∧ accepts w3 1 JNull = false) ∧
  ∃ w', UpdateFromXmlJsObjectCollection (JArray [renamed; JNull]) tt w3
          = (Throw (ServiceLocalException None), w') ∧
    items w' = items w3 ∧
    state <$> heap w3 !! 0%nat = Some [] ∧
    state <$> heap w' !! 0%nat = Some [renamed].
Proof.
  assert (Hb : delegates_bound w3) by evaluate.
  assert (Hnd : NoDup (items w3)) by evaluate.
  split; [by repeat split|].
  destruct (UpdateFromXmlJsObjectCollection_no_rollback
              w3 (JArray [renamed; JNull]) tt [renamed] JNull [] Hb Hnd)
    as (w' & Hrun & Hi & Hh & Hloaded).
  - reflexivity.
  - reflexivity.
  - intros [|j] p Hp; [|done]. injection Hp as <-. reflexivity.
  - reflexivity.
  - exists w'. split; [done|]. split; [done|]. split; [reflexivity|].
    by rewrite (Hloaded 0%nat renamed 0%nat
                  (Element ("Item"%string : @ctor host) [ItemChanged_bound 0]
                           ([] : @fields host))).
Defined.

(** C2 on the code.  A client constructs an element, adds it, removes it,
    and then changes it.  The removal does not take the bound delegate off
    the element ([RemoveEntry] looks for the unbound method), so the change
    still reaches [ItemChanged], which records the element: the world is
    reachable, the sequence is empty and [modifiedItems] holds the removed
    element. *)
Theorem removed_element_is_marked_modified :
  reachable after_stale_change ∧
  items after_stale_change = [] ∧
  modifiedItems after_stale_change = [0%nat] ∧
  ¬ (modifiedItems after_stale_change ⊆ items after_stale_change).
Proof.
  split; [|split; [reflexivity|split; [reflexivity|]]].
  - unfold after_stale_change.
    repeat (apply reachable_perform; [|vm_compute; lia || exact I]).
    apply reachable_empty.
  - intros Hsub. specialize (Hsub 0%nat). vm_compute in Hsub.
    assert (Hin : 0%nat ∈ [0%nat]) by left.
    apply Hsub in Hin. by apply elem_of_nil in Hin.
Qed.

End Concrete.

(** * Further properties of the class *)

(** ** More on the array helpers *)

Section Positions.
Context {A : Type} `{EqDecision A}.
Implicit Types (x y : A) (l : list A).

(** [indexOf] answers the first position that holds [x]. *)
Lemma indexOf_first l x :
  x ∈ l →
  l !! Z.to_nat (indexOf l x) = Some x ∧
  ∀ j, (j < Z.to_nat (indexOf l x))%nat → l !! j ≠ Some x.
Proof.
  induction l as [|y l IH]; [by intros ?%elem_of_nil|]. simpl.
  case_decide as Hy.
  - subst. intros _. split; [done|]. simpl. lia.
  - intros [?|Hin]%elem_of_cons; [congruence|].
    destruct (IH Hin) as [Hat Hbefore].
    assert (0 ≤ indexOf l x).
    { destruct (Z.lt_ge_cases (indexOf l x) 0) as [Hlt|]; [|lia].
      by apply indexOf_negative in Hlt. }
    destruct (Z.ltb_spec (indexOf l x) 0); [lia|].
    replace (Z.to_nat (indexOf l x + 1)) with (S (Z.to_nat (indexOf l x))) by lia.
    split; [done|]. intros [|j] Hj; simpl; [congruence|]. apply Hbefore. lia.
Qed.

Lemma indexOf_range l x : x ∈ l → 0 ≤ indexOf l x < Z.of_nat (length l).
Proof.
  intros Hin. destruct (indexOf_first l x Hin) as [Hat _].
  apply lookup_lt_Some in Hat.
  destruct (Z.lt_ge_cases (indexOf l x) 0) as [Hlt|]; [|lia].
  by apply indexOf_negative in Hlt.
Qed.

(** Where no reference is twice in the array, [indexOf] answers the
    position an element is read from. *)
Lemma indexOf_lookup l (i : nat) x :
  NoDup l → l !! i = Some x → indexOf l x = Z.of_nat i.
Proof.
  intros Hnd Hi.
  assert (Hin : x ∈ l) by (by eapply list_elem_of_lookup_2).
  destruct (indexOf_first l x Hin) as [Hat _].
  pose proof (indexOf_range l x Hin).
  assert (Z.to_nat (indexOf l x) = i) by (eapply NoDup_lookup; eauto). lia.
Qed.

Lemma indexOf_app_new l k x :
  x ∉ l → indexOf (l ++ x :: k) x = Z.of_nat (length l).
Proof.
  induction l as [|y l IH]; simpl.
  - intros _. by rewrite decide_True.
  - intros [Hne Hl]%not_elem_of_cons. rewrite decide_False by done.
    rewrite IH by done. destruct (Z.ltb_spec (Z.of_nat (length l)) 0); lia.
Qed.

Lemma remove_first_app_new l x : x ∉ l → remove_first x (l ++ [x]) = l.
Proof.
  induction l as [|y l IH]; simpl.
  - intros _. by rewrite decide_True.
  - intros [Hne Hl]%not_elem_of_cons. rewrite decide_False by done.
    by rewrite IH.
Qed.

Lemma remove_first_delete l (i : nat) x :
  NoDup l → l !! i = Some x → remove_first x l = delete i l.
Proof.
  intros Hnd. revert i. induction Hnd as [|y l Hy Hnd IH]; intros i Hi; [done|].
  destruct i as [|i]; simpl in *.
  - injection Hi as ->. by rewrite decide_True.
  - rewrite decide_False.
    + by rewrite (IH i).
    + intros ->. apply Hy. by eapply list_elem_of_lookup_2.
Qed.

Lemma filter_keeps_all (P : A → Prop) `{∀ y, Decision (P y)} l :
  (∀ y, y ∈ l → P y) → filter P l = l.
Proof.
  induction l as [|y l IH]; [done|]. intros Hall.
  rewrite filter_cons_True by (apply Hall; left).
  rewrite IH; [done|]. intros z Hz. apply Hall. by right.
Qed.

Lemma remove_first_filter l x :
  NoDup l → remove_first x l = filter (λ y, y ≠ x) l.
Proof.
  induction 1 as [|y l Hy Hnd IH]; [done|]. simpl.
  case_decide as Heq.
  - subst. rewrite filter_cons_False by (intros Hne; by apply Hne).
    symmetry. apply filter_keeps_all. intros z Hz ->. done.
  - rewrite filter_cons_True by done. by rewrite IH.
Qed.

End Positions.

(** ** Queries *)

Section Queries.
Context `{Host}.
Implicit Types (w : world) (x : ref).

(** X1.  [_getItem(index)] throws the out-of-range
    [ArgumentOutOfRangeException] for an index outside [0, Count) and
    returns the element at the position otherwise; the world is as it was
    either way. *)
Theorem _getItem_bounds w index :
  (¬ (0 ≤ index < Count w) →
     _getItem index w
       = (Throw (ArgumentOutOfRangeException "index" IndexIsOutOfRange), w)) ∧
  (0 ≤ index < Count w →
     ∃ x, items w !! Z.to_nat index = Some x ∧ _getItem index w = (Normal x, w)).
Proof.
  unfold Count. split; intros Hi.
  - unfold _getItem. eff. unfold Count.
    replace ((index <? 0) || (Z.of_nat (length (items w)) <=? index)) with true; [done|].
    symmetry. apply orb_true_iff. rewrite Z.ltb_lt, Z.leb_le. lia.
  - destruct (lookup_lt_is_Some_2 (items w) (Z.to_nat index)) as [x Hx]; [lia|].
    exists x. split; [done|].
    rewrite <- (Z2Nat.id index) at 1 by lia. by apply _getItem_member.
Qed.

(** X2.  [Contains(x)] answers whether [x] is in the sequence.  [IndexOf(x)]
    answers [-1] when it is not, and otherwise the first position that
    holds [x], which is inside [0, Count).  Neither changes the world. *)
Theorem IndexOf_Contains_membership w x :
  Contains x w = (Normal (bool_decide (x ∈ items w)), w) ∧
  ∃ i, IndexOf x w = (Normal i, w) ∧
    (x ∉ items w → i = -1) ∧
    (x ∈ items w →
       0 ≤ i < Count w ∧ items w !! Z.to_nat i = Some x ∧
       ∀ j, (j < Z.to_nat i)%nat → items w !! j ≠ Some x).
Proof.
  split.
  - unfold Contains. eff. by rewrite indexOf_present.
  - exists (indexOf (items w) x). split; [done|]. split.
    + intros Hout. pose proof (indexOf_lower (items w) x).
      apply indexOf_negative in Hout. lia.
    + intros Hin. split; [by apply indexOf_range|]. by apply indexOf_first.
Qed.

(** X3.  Looking a member up by its index gives the member back, and where
    no reference is twice in the sequence, the index of the element read at
    a position is that position. *)
Theorem IndexOf__getItem_round_trip w :
  (∀ x, x ∈ items w → (IndexOf x ≫= _getItem) w = (Normal x, w)) ∧
  (NoDup (items w) →
   ∀ index, 0 ≤ index < Count w →
     (_getItem index ≫= IndexOf) w = (Normal index, w)).
Proof.
  split.
  - intros x Hin. unfold IndexOf. eff. unfold mbind, Eff_bind.
    destruct (indexOf_first (items w) x Hin) as [Hat _].
    pose proof (indexOf_range (items w) x Hin).
    rewrite <- (Z2Nat.id (indexOf (items w) x)) by lia.
    by rewrite (_getItem_member w _ x).
  - intros Hnd index Hi. unfold Count in Hi.
    destruct (lookup_lt_is_Some_2 (items w) (Z.to_nat index)) as [x Hx]; [lia|].
    unfold mbind, Eff_bind. rewrite <- (Z2Nat.id index) at 1 by lia.
    rewrite (_getItem_member w _ x Hx). unfold IndexOf. eff.
    rewrite (indexOf_lookup _ _ _ Hnd Hx). f_equal. f_equal. lia.
Qed.

End Queries.

(** ** How the mutations compose *)

Section Composition.
Context `{Host}.
Implicit Types (w : world) (x : ref).

(** [Add(x)] for each element of a list, in order. *)
Definition Add_all (xs : list ref) : Eff unit :=
  for_of xs (λ x, InternalAdd x false).

(** X4.  [InternalAdd(x, loading)] for an [x] that is not in the sequence:
    [x] becomes the last element (so [Count] grows by one and [IndexOf(x)]
    is the old [Count]); without the loading flag [x] is appended to
    [addedItems] and its first occurrence is taken out of [removedItems],
    with the flag both are left alone; [modifiedItems] is left alone; one
    bound delegate is registered on [x] and one "changed" signal is
    emitted. *)
Theorem InternalAdd_new_member w x loading :
  x ∉ items w →
  ∃ w', InternalAdd x loading w = (Normal tt, w') ∧
    items w' = items w ++ [x] ∧ Count w' = Count w + 1 ∧
    IndexOf x w' = (Normal (Count w), w') ∧
    addedItems w' = (if loading then addedItems w else addedItems w ++ [x]) ∧
    removedItems w' =
      (if loading then removedItems w else remove_first x (removedItems w)) ∧
    modifiedItems w' = modifiedItems w ∧
    changed w' = S (changed w) ∧
    ∀ e, heap w !! x = Some e →
      heap w' !! x
        = Some (Element (constructor e)
                  (OnChange e ++ [ItemChanged_bound (binds w)]) (state e)).
Proof.
  intros Hout. rewrite InternalAdd_eq, bool_decide_eq_false_2 by done.
  eexists; split; [done|]. unfold Count, IndexOf. eff.
  repeat split.
  - rewrite length_app. simpl. lia.
  - by rewrite indexOf_app_new.
  - intros e He. by rewrite list_lookup_alter_eq, He.
Qed.

(** X5.  Adding elements that are pairwise different and not yet members, one
    after the other: the calls return, the sequence and [addedItems] grow
    by the elements in call order, [Count] grows by their number, the i-th
    of them has index old [Count] + i, and one signal is emitted per
    call. *)
Theorem Add_all_distinct xs :
  ∀ w, NoDup xs → (∀ x, x ∈ xs → x ∉ items w) →
    ∃ w', Add_all xs w = (Normal tt, w') ∧
      items w' = items w ++ xs ∧ addedItems w' = addedItems w ++ xs ∧
      Count w' = Count w + Z.of_nat (length xs) ∧
      changed w' = (changed w + length xs)%nat ∧
      ∀ (i : nat) x, xs !! i = Some x →
        IndexOf x w' = (Normal (Count w + Z.of_nat i), w').
Proof.
  unfold Add_all.
  induction xs as [|x xs IH]; intros w Hnd Hnew.
  - exists w. simpl. rewrite !app_nil_r. unfold Count.
    repeat split; try done; lia.
  - apply NoDup_cons in Hnd as [Hx Hnd].
    assert (∃ w1, InternalAdd x false w = (Normal tt, w1) ∧
              items w1 = items w ++ [x] ∧ Count w1 = Count w + 1 ∧
              addedItems w1 = addedItems w ++ [x] ∧ changed w1 = S (changed w))
      as (w1 & Hadd & Hi1 & Hc1 & Ha1 & Hch1).
    { rewrite InternalAdd_eq, bool_decide_eq_false_2 by (apply Hnew; left).
      eexists; split; [done|]. unfold Count. simpl.
      repeat split. rewrite length_app. simpl. lia. }
    destruct (IH w1 Hnd) as (w' & Hrun & Hi & Ha & Hc & Hch & Hidx).
    { intros y Hy. rewrite Hi1. apply not_elem_of_app. split.
      - apply Hnew. by right.
      - apply not_elem_of_cons. split; [by intros -> | apply not_elem_of_nil]. }
    exists w'. simpl. unfold mbind, Eff_bind. rewrite Hadd.
    split; [done|]. rewrite Hi, Ha, Hc, Hch, Hi1, Ha1, Hc1, Hch1.
    rewrite <- !app_assoc. simpl. repeat split; try lia.
    intros [|i] y Hy; simpl in Hy.
    + injection Hy as <-. unfold IndexOf. eff. rewrite Hi, Hi1, <- app_assoc.
      simpl. rewrite indexOf_app_new by (apply Hnew; left).
      unfold Count. f_equal. f_equal. lia.
    + rewrite (Hidx i y Hy), Hc1. f_equal. f_equal. lia.
Qed.

(** X6.  [InternalAdd(x)] and then [InternalRemove(x)], for an [x] that is
    neither in the sequence nor in [addedItems]: the sequence and
    [addedItems] are what they were before the two calls, [x] is not
    recorded as removed (an occurrence of [x] that [removedItems] held is
    gone instead), and two signals are emitted. *)
Theorem Add_then_Remove_cancels w x :
  x ∉ items w → x ∉ addedItems w →
  ∃ w', (InternalAdd x false;; InternalRemove (Some x)) w = (Normal true, w') ∧
    items w' = items w ∧ addedItems w' = addedItems w ∧
    removedItems w' = remove_first x (removedItems w) ∧
    modifiedItems w' = remove_first x (modifiedItems w) ∧
    changed w' = S (S (changed w)).
Proof.
  intros Hi Ha. unfold mbind, Eff_bind.
  rewrite InternalAdd_eq, bool_decide_eq_false_2 by done.
  rewrite InternalRemove_Some. simpl.
  rewrite bool_decide_eq_true_2 by (apply elem_of_app; right; left).
  eexists; split; [done|]. simpl.
  rewrite !bool_decide_eq_true_2 by (apply elem_of_app; right; left).
  by rewrite !remove_first_app_new.
Qed.

(** X7.  [InternalRemove(x)] and then [InternalAdd(x)], for a member [x] of
    a sequence without repetition that is in neither [addedItems] nor
    [removedItems]: [x] moves to the end of the sequence and is reported as
    added; [removedItems] is what it was before the two calls. *)
Theorem Remove_then_Add_reinstates w x :
  NoDup (items w) → x ∈ items w → x ∉ addedItems w → x ∉ removedItems w →
  ∃ w', (InternalRemove (Some x);; InternalAdd x false) w = (Normal tt, w') ∧
    items w' = remove_first x (items w) ++ [x] ∧
    addedItems w' = addedItems w ++ [x] ∧
    removedItems w' = removedItems w ∧
    modifiedItems w' = remove_first x (modifiedItems w) ∧
    changed w' = S (S (changed w)).
Proof.
  intros Hnd Hi Ha Hr. unfold mbind, Eff_bind.
  rewrite InternalRemove_Some, bool_decide_eq_true_2 by done.
  rewrite InternalAdd_eq. simpl.
  rewrite bool_decide_eq_false_2 by (by apply remove_first_purges).
  eexists; split; [done|]. simpl.
  rewrite !bool_decide_eq_false_2 by done.
  by rewrite remove_first_app_new.
Qed.

(** X8.  [ItemChanged(x)] does nothing when [x] is in [addedItems] or already
    in [modifiedItems]; otherwise it appends [x] to [modifiedItems] and
    emits one signal, whether or not [x] is in the sequence.  It touches
    nothing else, and a second call in a row does nothing. *)
Theorem ItemChanged_effects w x :
  (x ∈ addedItems w ∨ x ∈ modifiedItems w → ItemChanged x w = (Normal tt, w)) ∧
  (x ∉ addedItems w → x ∉ modifiedItems w →
     ∃ w', ItemChanged x w = (Normal tt, w') ∧
       modifiedItems w' = modifiedItems w ++ [x] ∧
       changed w' = S (changed w) ∧ marks_only w w') ∧
  (ItemChanged x;; ItemChanged x) w = ItemChanged x w.
Proof.
  split; [|split].
  - rewrite ItemChanged_eq. intros [Hin|Hin].
    + by rewrite (bool_decide_eq_true_2 (x ∈ addedItems w)).
    + rewrite (bool_decide_eq_true_2 (x ∈ modifiedItems w)) by done.
      by rewrite orb_true_r.
  - intros Ha Hm. rewrite ItemChanged_eq, !bool_decide_eq_false_2 by done.
    eexists; split; [done|]. by repeat split.
  - unfold mbind, Eff_bind. rewrite ItemChanged_eq.
    destruct (bool_decide (x ∈ addedItems w)) eqn:Ea; simpl.
    { rewrite ItemChanged_eq, Ea. done. }
    destruct (bool_decide (x ∈ modifiedItems w)) eqn:Em; simpl.
    { rewrite ItemChanged_eq, Ea, Em. done. }
    rewrite ItemChanged_eq. simpl. rewrite Ea.
    rewrite (bool_decide_eq_true_2 (x ∈ modifiedItems w ++ [x]))
      by (apply elem_of_app; right; left).
    done.
Qed.

(** X9.  Where no reference is twice in the sequence, [InternalRemoveAt] at
    an index inside the range takes out the element of exactly that
    position. *)
Theorem InternalRemoveAt_deletes_position w index :
  NoDup (items w) → 0 ≤ index < Count w →
  items (InternalRemoveAt index w).2 = delete (Z.to_nat index) (items w).
Proof.
  intros Hnd Hi. unfold Count in Hi.
  destruct (lookup_lt_is_Some_2 (items w) (Z.to_nat index)) as [x Hx]; [lia|].
  rewrite (InternalRemoveAt_inside w index x) by (done || lia). simpl.
  by apply remove_first_delete.
Qed.

End Composition.

(** ** Clearing, in closed form *)

Section Clearing.
Context `{Host}.
Implicit Types (w : world) (x : ref).

Lemma filter_agree {A} (P Q : A → Prop) `{∀ y, Decision (P y)}
    `{∀ y, Decision (Q y)} (l : list A) :
  (∀ y, y ∈ l → (P y ↔ Q y)) → filter P l = filter Q l.
Proof.
  induction l as [|y l IH]; [done|]. intros Hall.
  assert (Hl : filter P l = filter Q l).
  { apply IH. intros z Hz. apply Hall. by right. }
  destruct (decide (P y)) as [Hy|Hy].
  - rewrite !filter_cons_True; [by rewrite Hl | by apply (Hall y); [left|] | done].
  - rewrite !filter_cons_False; [done | | done].
    intros HQ. apply Hy. apply (Hall y); [left | done].
Qed.

(** What one removal leaves of an array without repetition. *)
Lemma without_member (l : list ref) x :
  NoDup l →
  (if bool_decide (x ∈ l) then remove_first x l else l) = filter (λ y, y ≠ x) l.
Proof.
  intros Hnd. case_bool_decide as Hin; [by apply remove_first_filter|].
  symmetry. apply filter_keeps_all. by intros y Hy ->.
Qed.

Lemma filter_without (l k : list ref) x :
  filter (λ y, y ∉ k) (filter (λ y, y ≠ x) l) = filter (λ y, y ∉ x :: k) l.
Proof.
  rewrite list_filter_filter. apply list_filter_iff. intros y.
  rewrite not_elem_of_cons. tauto.
Qed.

(** What [InternalClear] is shown to leave, as a relation between the world
    before and the outcome. *)
Definition clears_to (w : world) (r : completion unit * world) : Prop :=
  ∃ w', r = (Normal tt, w') ∧ items w' = [] ∧
    addedItems w' = filter (λ y, y ∉ items w) (addedItems w) ∧
    modifiedItems w' = filter (λ y, y ∉ items w) (modifiedItems w) ∧
    removedItems w' =
      removedItems w ++ filter (λ y, y ∉ addedItems w) (items w) ∧
    changed w' = (changed w + length (items w))%nat.

(** X10.  [InternalClear()] where no reference is twice in the sequence, in
    [addedItems] or in [modifiedItems]: it returns with an empty sequence;
    [addedItems] and [modifiedItems] keep only what was not a member;
    [removedItems] gains, in sequence order, exactly the members that were
    not in [addedItems]; one signal is emitted per member. *)
Theorem InternalClear_change_log w :
  NoDup (items w) → NoDup (addedItems w) → NoDup (modifiedItems w) →
  ∃ w', InternalClear w = (Normal tt, w') ∧ items w' = [] ∧
    addedItems w' = filter (λ y, y ∉ items w) (addedItems w) ∧
    modifiedItems w' = filter (λ y, y ∉ items w) (modifiedItems w) ∧
    removedItems w' =
      removedItems w ++ filter (λ y, y ∉ addedItems w) (items w) ∧
    changed w' = (changed w + length (items w))%nat.
Proof.
  change (NoDup (items w) → NoDup (addedItems w) → NoDup (modifiedItems w) →
          clears_to w (InternalClear w)).
  apply (InternalClear_elim
    (λ w r, NoDup (items w) → NoDup (addedItems w) → NoDup (modifiedItems w) →
            clears_to w r)); clear w; unfold clears_to.
  - intros w Hdone _ _ _ _. unfold Count in Hdone.
    destruct (items w) as [|x l] eqn:Hits; [|by apply Z.ltb_ge in Hdone].
    exists w. rewrite Hits. simpl. rewrite app_nil_r.
    repeat split; try done; try lia.
    + symmetry. apply filter_keeps_all. intros y _. apply not_elem_of_nil.
    + symmetry. apply filter_keeps_all. intros y _. apply not_elem_of_nil.
  - intros w [] w' Hturn Hmore IH _ _ Hi Ha Hm.
    unfold Count in Hmore.
    destruct (items w) as [|x l] eqn:Hits; [done|].
    destruct (Remove_first_cons w x l Hits) as (_ & Hat & Hl).
    assert (w' = removed_from x w) as -> by congruence.
    apply NoDup_cons in Hi as [Hx Hl'].
    destruct IH as (w2 & Hrun & Hi2 & Ha2 & Hm2 & Hr2 & Hch2).
    { by rewrite Hl. }
    { simpl. rewrite without_member by done. by apply NoDup_filter. }
    { simpl. by apply remove_first_NoDup. }
    exists w2. split; [done|]. split; [done|].
    rewrite Ha2, Hm2, Hr2, Hch2, Hl. simpl.
    rewrite (without_member (addedItems w) x Ha), filter_without.
    rewrite (remove_first_filter (modifiedItems w) x Hm), filter_without.
    repeat split; [|lia].
    assert (Hsame : filter (λ y, y ∉ filter (λ y0, y0 ≠ x) (addedItems w)) l
                    = filter (λ y, y ∉ addedItems w) l).
    { apply filter_agree. intros y Hy. rewrite list_elem_of_filter.
      assert (y ≠ x) by (by intros ->). tauto. }
    rewrite Hsame. case_bool_decide as Hxa.
    + by rewrite filter_cons_False by (by intros Hn; apply Hn).
    + rewrite filter_cons_True by done. by rewrite <- app_assoc.
  - intros w e w' Hturn _ _ _ _ _ _.
    pose proof (InternalRemoveAt_returns w 0) as Hr. by rewrite Hturn in Hr.
Qed.

(** X11.  Whatever the collection held, after [InternalClear()] the update
    serialization deletes the property: [ShouldWriteToRequest()] answers
    [false] and [WriteSetUpdateToXml] answers [true], having written the
    owner's delete-field element around the property's schema identity. *)
Theorem InternalClear_then_update_deletes w writer ewsObject propertyDefinition :
  ∃ w', InternalClear w = (Normal tt, w') ∧
    ShouldWriteToRequest w' = (Normal false, w') ∧
    WriteSetUpdateToXml writer ewsObject propertyDefinition w'
      = (Normal (true,
                 writer
                   ++ [StartElement Types (GetDeleteFieldXmlElementName ewsObject)]
                   ++ schema_identity propertyDefinition ++ [EndElement]), w').
Proof.
  assert (Hclear : ∃ w', InternalClear w = (Normal tt, w') ∧ items w' = []).
  { apply (InternalClear_elim
             (λ w r, ∃ w', r = (Normal tt, w') ∧ items w' = [])); clear w.
    - intros w Hdone _. unfold Count in Hdone. exists w. split; [done|].
      destruct (items w); [done | by apply Z.ltb_ge in Hdone].
    - by intros w [] w' _ _ IH _ _.
    - intros w e w' Hturn _ _ _.
      pose proof (InternalRemoveAt_returns w 0) as Hr. by rewrite Hturn in Hr. }
  destruct Hclear as (w' & Hrun & Hempty). exists w'. split; [done|].
  unfold ShouldWriteToRequest, WriteSetUpdateToXml. eff. unfold Count.
  rewrite Hempty. simpl. split; [done|].
  unfold WriteEndElement, PropertyDefinition_WriteToXml, WriteStartElement.
  by rewrite <- !app_assoc.
Qed.

End Clearing.

(** ** What an update keeps *)

Section UpdateFrame.
Context `{Host}.
Implicit Types (w : world) (x : ref) (service : ExchangeService).

(** [w'] has the members, the pending additions and removals, the element
    objects with their classes and delegates that [w] has; [modifiedItems]
    and the signal count can only have grown. *)
Definition same_membership (w w' : world) : Prop :=
  items w' = items w ∧ addedItems w' = addedItems w ∧
  removedItems w' = removedItems w ∧ binds w' = binds w ∧
  console w' = console w ∧
  constructor <$> heap w' = constructor <$> heap w ∧
  OnChange <$> heap w' = OnChange <$> heap w ∧
  modifiedItems w `prefix_of` modifiedItems w' ∧
  (changed w ≤ changed w')%nat.

Lemma same_membership_refl w : same_membership w w.
Proof. by repeat split. Qed.

Lemma same_membership_trans w1 w2 w3 :
  same_membership w1 w2 → same_membership w2 w3 → same_membership w1 w3.
Proof.
  intros (? & ? & ? & ? & ? & ? & ? & ? & ?) (? & ? & ? & ? & ? & ? & ? & ? & ?).
  repeat split; try congruence; [by etrans | lia].
Qed.

Lemma same_membership_ItemChanged x w : same_membership w (ItemChanged x w).2.
Proof.
  rewrite ItemChanged_eq. simpl. destruct (_ || _); [apply same_membership_refl|].
  repeat split; simpl; [by apply prefix_app_r | lia].
Qed.

Lemma same_membership_element_Changed x w :
  same_membership w (element_Changed x w).2.
Proof.
  unfold element_Changed. eff.
  destruct (heap w !! x) as [e|]; [|apply same_membership_refl].
  apply (for_of_keeps (same_membership w)); [|apply same_membership_refl].
  intros [|k] w1 Hw1; [done|]. simpl.
  eapply same_membership_trans; [done | apply same_membership_ItemChanged].
Qed.

Lemma fmap_alter_same {B} (g : element → B) (f : element → element)
    (h : list element) x :
  (∀ e, g (f e) = g e) → g <$> alter f x h = g <$> h.
Proof.
  intros Hg. apply list_eq. intros i. rewrite !list_lookup_fmap.
  destruct (decide (x = i)) as [->|Hne].
  - rewrite list_lookup_alter_eq. destruct (h !! i); simpl; [|done]. by rewrite Hg.
  - by rewrite list_lookup_alter_ne.
Qed.

Lemma same_membership_element_LoadFromXmlJsObject x p service w :
  same_membership w (element_LoadFromXmlJsObject x p service w).2.
Proof.
  unfold element_LoadFromXmlJsObject. eff.
  destruct (heap w !! x) as [e|]; [|apply same_membership_refl].
  apply (for_of_keeps (same_membership w)).
  - intros _ w1 Hw1. eapply same_membership_trans; [done|].
    apply same_membership_element_Changed.
  - repeat split; simpl; try done; by apply fmap_alter_same.
Qed.

Lemma same_membership_update_loop service collection :
  ∀ index w, same_membership w (update_loop collection service index w).2.
Proof.
  induction collection as [|p collection IH]; intros index w;
    [apply same_membership_refl|].
  assert (Hgo : same_membership w
            ((actualComplexProperty ← _getItem index;
              h ← gets heap;
              match resolve p, h !! actualComplexProperty with
              | Some expected, Some actual =>
                  if instanceof (constructor actual) expected then
                    element_LoadFromXmlJsObject actualComplexProperty p service;;
                    update_loop collection service (index + 1)
                  else
                    mthrow (ServiceLocalException
                              (Some PropertyTypeIncompatibleWhenUpdatingCollection))
              | _, _ =>
                  mthrow (ServiceLocalException
                            (Some PropertyTypeIncompatibleWhenUpdatingCollection))
              end) w).2).
  { unfold mbind at 1, Eff_bind at 1.
    pose proof (_getItem_keeps_world w index) as Hget.
    destruct (_getItem index w) as [[x|e] w1]; simpl in Hget; subst w1;
      [|apply same_membership_refl].
    eff. destruct (resolve p) as [c|]; [|apply same_membership_refl].
    destruct (heap w !! x) as [el|]; [|apply same_membership_refl].
    destruct (instanceof _ _); [|apply same_membership_refl].
    unfold mbind, Eff_bind.
    pose proof (same_membership_element_LoadFromXmlJsObject x p service w) as Hl.
    destruct (element_LoadFromXmlJsObject x p service w) as [[[]|e] w2]; [|done].
    eapply same_membership_trans; [done | apply IH]. }
  destruct p; [apply same_membership_refl|..]; exact Hgo.
Qed.

(** X12.  Whatever the payload, and whether it returns or throws,
    [UpdateFromXmlJsObjectCollection] adds, removes and reorders nothing:
    the sequence, [addedItems] and [removedItems] are what they were, the
    same element objects are there with their classes and delegates, and
    [modifiedItems] and the signal count have at most grown. *)
Theorem UpdateFromXmlJsObjectCollection_keeps_membership w payload service :
  let w' := (UpdateFromXmlJsObjectCollection payload service w).2 in
  items w' = items w ∧ addedItems w' = addedItems w ∧
  removedItems w' = removedItems w ∧
  constructor <$> heap w' = constructor <$> heap w ∧
  OnChange <$> heap w' = OnChange <$> heap w ∧
  modifiedItems w `prefix_of` modifiedItems w' ∧
  (changed w ≤ changed w')%nat.
Proof.
  assert (Hs : same_membership w (UpdateFromXmlJsObjectCollection payload service w).2).
  { rewrite UpdateFromXmlJsObjectCollection_eq.
    destruct (collection_of payload) as [entries|e]; [|apply same_membership_refl].
    case_bool_decide; [apply same_membership_refl|].
    apply same_membership_update_loop. }
  destruct Hs as (? & ? & ? & ? & ? & ? & ? & ? & ?). by repeat split.
Qed.

(** X13.  When the payload stands for a list of entries (it is not [null]
    or [undefined], on which normalization throws), the list is as long as
    the collection and the loop accepts each entry at its position (the
    entry is not [null] and resolves to a class the element there is an
    instance of), [UpdateFromXmlJsObjectCollection] returns, the sequence
    holds the same element objects in the same order, and each element has
    loaded the entry at its position. *)
Theorem UpdateFromXmlJsObjectCollection_accepted w payload service entries :
  delegates_bound w →
  NoDup (items w) →
  collection_of payload = Normal entries →
  Count w = Z.of_nat (length entries) →
  (∀ j p, entries !! j = Some p → accepts w j p = true) →
  ∃ w', UpdateFromXmlJsObjectCollection payload service w = (Normal tt, w') ∧
    items w' = items w ∧
    heap w' = loads service (items w) entries (heap w) ∧
    ∀ j p x el,
      entries !! j = Some p → items w !! j = Some x →
      heap w !! x = Some el →
      heap w' !! x = Some (loaded p service el).
Proof.
  intros Hb Hnd Hentries Hcount Hacc.
  destruct (update_loop_accepted service entries 0 w Hb Hacc)
    as (w1 & Hrun & Hi & _ & Hh & _).
  rewrite drop_0 in Hh. change (Z.of_nat 0) with 0 in Hrun.
  exists w1. split; [|split; [done|split; [done|]]].
  - rewrite UpdateFromXmlJsObjectCollection_eq, Hentries.
    by rewrite bool_decide_eq_false_2 by (intros Hne; by apply Hne).
  - intros j p x el Hp Hx Hel. rewrite Hh. by eapply loads_lookup.
Qed.

End UpdateFrame.

(** ** What an update marks *)

Section UpdateMarks.
Context `{Host}.
Implicit Types (w : world) (x : ref) (service : ExchangeService).

Lemma prefix_elem_of (l k : list ref) x : l `prefix_of` k → x ∈ l → x ∈ k.
Proof. intros [k' ->] Hin. apply elem_of_app. by left. Qed.

(** A notification of a subscribed element that is not a pending addition
    leaves it in [modifiedItems]. *)
Lemma element_Changed_marks_subscribed w x e :
  delegates_bound w → heap w !! x = Some e → OnChange e ≠ [] →
  x ∉ addedItems w → x ∈ modifiedItems (element_Changed x w).2.
Proof.
  intros Hb He Hd Ha. unfold element_Changed. eff. rewrite He.
  destruct (OnChange e) as [|d ds] eqn:Hds; [done|].
  assert (d ≠ ItemChanged_method).
  { intros ->. unfold delegates_bound in Hb. rewrite Forall_lookup in Hb.
    apply (Hb x e He). rewrite Hds. left. }
  destruct d as [|k]; [done|]. cbn [for_of invoke].
  unfold mbind, Eff_bind. rewrite ItemChanged_eq.
  rewrite (bool_decide_eq_false_2 (x ∈ addedItems w)) by done. cbn [orb].
  apply (for_of_keeps (λ w2, x ∈ modifiedItems w2)).
  - intros d w2 Hw2. destruct d as [|k']; [done|]. simpl.
    destruct (same_membership_ItemChanged x w2) as (_ & _ & _ & _ & _ & _ & _ & Hp & _).
    by eapply prefix_elem_of.
  - case_bool_decide; [done|]. simpl. apply elem_of_app. right. left.
Qed.

(** A load that notifies at least once does the same. *)
Lemma element_LoadFromXmlJsObject_marks w x e p service :
  delegates_bound w → heap w !! x = Some e → OnChange e ≠ [] →
  x ∉ addedItems w →
  (LoadFromXmlJsObject (constructor e) p service (state e)).2 ≠ 0%nat →
  x ∈ modifiedItems (element_LoadFromXmlJsObject x p service w).2.
Proof.
  intros Hb He Hd Ha Hn. unfold element_LoadFromXmlJsObject. eff. rewrite He.
  destruct ((LoadFromXmlJsObject (constructor e) p service (state e)).2)
    as [|n]; [done|].
  cbn [replicate for_of]. unfold mbind, Eff_bind.
  pose proof (element_Changed_marks_subscribed
                (set_heap (alter (loaded p service) x) w) x (loaded p service e)) as Hm.
  destruct (element_Changed x (set_heap (alter (loaded p service) x) w))
    as [[[]|err] w2].
  - apply (for_of_keeps (λ w3, x ∈ modifiedItems w3)).
    + intros _ w3 Hw3.
      destruct (same_membership_element_Changed x w3)
        as (_ & _ & _ & _ & _ & _ & _ & Hp & _).
      by eapply prefix_elem_of.
    + apply Hm; try done.
      * by apply delegates_bound_loaded.
      * simpl. by rewrite list_lookup_alter_eq, He.
  - apply Hm; try done.
    + by apply delegates_bound_loaded.
    + simpl. by rewrite list_lookup_alter_eq, He.
Qed.

(** One turn of the update loop on an entry it accepts, as the load it
    runs. *)
Lemma update_turn_load w (i : nat) p x service :
  delegates_bound w → accepts w i p = true → items w !! i = Some x →
  ∀ rest, update_loop (p :: rest) service (Z.of_nat i) w
          = update_loop rest service (Z.of_nat (S i))
              (element_LoadFromXmlJsObject x p service w).2.
Proof.
  intros Hb Hacc Hx rest.
  destruct (accepts_inv _ _ _ Hacc) as (Hp & y & el & c & Hy & Hel & Hc & Hinst).
  assert (y = x) as -> by congruence.
  destruct (element_LoadFromXmlJsObject_spec x p service w Hb) as (w1 & Hload & _).
  assert (Hgo : (actualComplexProperty ← _getItem (Z.of_nat i);
                 h ← gets heap;
                 match resolve p, h !! actualComplexProperty with
                 | Some expected, Some actual =>
                     if instanceof (constructor actual) expected then
                       element_LoadFromXmlJsObject actualComplexProperty p service;;
                       update_loop rest service (Z.of_nat i + 1)
                     else
                       mthrow (ServiceLocalException
                                 (Some PropertyTypeIncompatibleWhenUpdatingCollection))
                 | _, _ =>
                     mthrow (ServiceLocalException
                               (Some PropertyTypeIncompatibleWhenUpdatingCollection))
                 end) w
               = update_loop rest service (Z.of_nat (S i))
                   (element_LoadFromXmlJsObject x p service w).2).
  { unfold mbind at 1, Eff_bind at 1. rewrite (_getItem_member _ _ _ Hx).
    eff. rewrite Hc, Hel, Hinst. unfold mbind, Eff_bind. rewrite Hload. simpl.
    by replace (Z.of_nat i + 1) with (Z.of_nat (S i)) by lia. }
  by destruct p.
Qed.

(** The elements at positions the entries do not reach are not loaded. *)
Lemma loads_lookup_later service positions :
  ∀ entries h (j : nat) x,
    NoDup positions → positions !! j = Some x → (length entries ≤ j)%nat →
    loads service positions entries h !! x = h !! x.
Proof.
  induction positions as [|y positions IH]; intros entries h j x Hnd Hx Hlen; [done|].
  destruct entries as [|q entries]; [done|].
  apply NoDup_cons in Hnd as [Hy Hnd].
  destruct j as [|j]; simpl in Hlen; [lia|]. simpl in Hx.
  assert (y ≠ x).
  { intros ->. apply Hy. by eapply list_elem_of_lookup_2. }
  change (loads service (y :: positions) (q :: entries) h)
    with (loads service positions entries (alter (loaded q service) y h)).
  rewrite (IH entries _ j x) by (done || lia).
  by rewrite list_lookup_alter_ne.
Qed.

(** X14.  An update that succeeds leaves the elements it touched marked: when
    every entry of the list the payload stands for is accepted, an element
    that has a delegate registered, is not a pending addition, and notifies
    at least once while it loads the entry at its position is in
    [modifiedItems] when the call returns. *)
Theorem UpdateFromXmlJsObjectCollection_marks_modified
    w payload service entries (j : nat) p x el :
  delegates_bound w →
  NoDup (items w) →
  collection_of payload = Normal entries →
  Count w = Z.of_nat (length entries) →
  (∀ i q, entries !! i = Some q → accepts w i q = true) →
  entries !! j = Some p → items w !! j = Some x →
  heap w !! x = Some el → OnChange el ≠ [] → x ∉ addedItems w →
  (LoadFromXmlJsObject (constructor el) p service (state el)).2 ≠ 0%nat →
  ∃ w', UpdateFromXmlJsObjectCollection payload service w = (Normal tt, w') ∧
    x ∈ modifiedItems w'.
Proof.
  intros Hb Hnd Hentries Hcount Hacc Hp Hx Hel Hd Ha Hn.
  destruct (update_loop_accepted service entries 0 w Hb Hacc)
    as (w' & Hrun & _).
  change (Z.of_nat 0) with 0 in Hrun.
  exists w'. split.
  { rewrite UpdateFromXmlJsObjectCollection_eq, Hentries.
    by rewrite bool_decide_eq_false_2 by (intros Hne; by apply Hne). }
  assert (Hw' : w' = (update_loop entries service 0 w).2)
    by (by rewrite Hrun).
  clear Hrun Hentries. subst w'. set (l := entries) in *.
  rewrite <- (take_drop_middle l j p Hp), update_loop_app.
  destruct (update_loop_accepted service (take j l) 0 w Hb)
    as (w1 & Hpre & Hi1 & Hb1 & Hh1 & Hsame1).
  { intros i q Hq. apply lookup_take_Some in Hq as [Hq _]. by apply Hacc. }
  change (Z.of_nat 0) with 0 in Hpre. rewrite Hpre.
  rewrite drop_0 in Hh1.
  pose proof (same_membership_update_loop service (take j l) 0 w) as Hm1.
  rewrite Hpre in Hm1. destruct Hm1 as (_ & Ha1 & _). simpl in Ha1.
  assert (Hlen : length (take j l) = j).
  { apply lookup_lt_Some in Hp. rewrite length_take. lia. }
  rewrite Hlen, Z.add_0_l.
  rewrite (update_turn_load w1 j p x service Hb1).
  - pose proof (same_membership_update_loop service (drop (S j) l) (Z.of_nat (S j))
                  (element_LoadFromXmlJsObject x p service w1).2)
      as (_ & _ & _ & _ & _ & _ & _ & Hpfx & _).
    eapply prefix_elem_of; [done|].
    apply (element_LoadFromXmlJsObject_marks w1 x el); try done.
    + rewrite Hh1. rewrite (loads_lookup_later service (items w) (take j l) _ j x);
        [done | done | done | lia].
    + by rewrite Ha1.
  - rewrite Hsame1. by apply Hacc.
  - by rewrite Hi1.
Qed.

End UpdateMarks.

(** ** What creation from a wire payload appends *)

Section Creation.
Context `{Host}.
Implicit Types (w : world) (x : ref) (service : ExchangeService).

(** The payload entries [CreateFromXmlJsObjectCollection] makes an element
    of, each with the class it resolves to: the entries that are not [null]
    and resolve to a class. *)
Definition instantiated (entries : list jsval) : list (ctor * jsval) :=
  omap (λ p, match p with
             | JNull => None
             | _ => (λ c, (c, p)) <$> resolve p
             end) entries.

(** The element objects made of such entries when [b] bound functions exist
    already: each is of its class, holds the state it loaded from its entry
    into a new object, and has one delegate, bound for it. *)
Definition created (service : ExchangeService) (b : nat)
    (cps : list (ctor * jsval)) : list element :=
  imap (λ i cp, Element cp.1 [ItemChanged_bound (b + i)]
                  (LoadFromXmlJsObject cp.1 cp.2 service (new_fields cp.1)).1) cps.

Lemma create_element_eq c p service w :
  length (heap w) ∉ items w →
  (complexProperty ← new c;
   element_LoadFromXmlJsObject complexProperty p service;;
   InternalAdd complexProperty true) w
  = (Normal tt,
     World (heap w ++ [Element c [ItemChanged_bound (binds w)]
                         (LoadFromXmlJsObject c p service (new_fields c)).1])
           (S (binds w)) (items w ++ [length (heap w)]) (addedItems w)
           (modifiedItems w) (removedItems w) (S (changed w)) (console w)).
Proof.
  intros Hfresh. unfold new. eff. unfold mbind, Eff_bind.
  erewrite element_LoadFromXmlJsObject_no_delegates; cycle 1.
  { simpl. by rewrite list_lookup_middle. }
  { done. }
  rewrite InternalAdd_eq. simpl. rewrite bool_decide_eq_false_2 by done.
  do 2 f_equal.
  rewrite <- (Nat.add_0_r (length (heap w))), !alter_app_r. done.
Qed.

(** The loop, on a world whose members are objects of it. *)
Lemma create_loop service entries :
  ∀ w, Forall (λ x, (x < length (heap w))%nat) (items w) →
    for_of entries (create_entry service) w
    = (Normal tt,
       World (heap w ++ created service (binds w) (instantiated entries))
             (binds w + length (instantiated entries))
             (items w ++ seq (length (heap w)) (length (instantiated entries)))
             (addedItems w) (modifiedItems w) (removedItems w)
             (changed w + length (instantiated entries)) (console w)).
Proof.
  induction entries as [|p entries IH]; intros w Hobj.
  - simpl. rewrite !app_nil_r, !Nat.add_0_r. by destruct w.
  - assert (Hskip : for_of entries (create_entry service) w
              = (Normal tt,
                 World (heap w ++ created service (binds w) (instantiated entries))
                   (binds w + length (instantiated entries))
                   (items w ++ seq (length (heap w)) (length (instantiated entries)))
                   (addedItems w) (modifiedItems w) (removedItems w)
                   (changed w + length (instantiated entries)) (console w)))
      by (by apply IH).
    assert (Hmake : ∀ c, resolve p = Some c → p ≠ JNull →
              for_of (p :: entries) (create_entry service) w
              = (Normal tt,
                 World (heap w ++ created service (binds w) ((c, p) :: instantiated entries))
                   (binds w + S (length (instantiated entries)))
                   (items w ++ seq (length (heap w)) (S (length (instantiated entries))))
                   (addedItems w) (modifiedItems w) (removedItems w)
                   (changed w + S (length (instantiated entries))) (console w))).
    { intros c Hc Hp. cbn [for_of]. unfold mbind at 1, Eff_bind at 1.
      assert (Hentry : create_entry service p w
                = (complexProperty ← new c;
                   element_LoadFromXmlJsObject complexProperty p service;;
                   InternalAdd complexProperty true) w).
      { unfold create_entry. rewrite Hc. by destruct p. }
      rewrite Hentry, create_element_eq; cycle 1.
      { intros Hin. rewrite Forall_forall in Hobj. apply Hobj in Hin. lia. }
      rewrite IH; cycle 1.
      { simpl. rewrite length_app. simpl. apply Forall_app. split.
        - eapply Forall_impl; [done|]. simpl. lia.
        - apply Forall_singleton. lia. }
      simpl. rewrite length_app. simpl.
      rewrite <- !app_assoc. simpl. unfold created. rewrite imap_cons.
      rewrite Nat.add_0_r, Nat.add_1_r.
      f_equal. f_equal; try lia.
      do 2 f_equal. apply imap_ext. intros i cp _. simpl.
      do 3 f_equal. lia. }
    assert (Hcases :
      (instantiated (p :: entries) = instantiated entries ∧
       create_entry service p w = (Normal tt, w)) ∨
      ∃ c, resolve p = Some c ∧ p ≠ JNull ∧
           instantiated (p :: entries) = (c, p) :: instantiated entries).
    { unfold instantiated, create_entry.
      destruct p; [by left|..];
        (destruct (resolve _) as [c|] eqn:Hc;
         [right; exists c; repeat split; [done|]; simpl; by rewrite Hc
         |left; simpl; by rewrite Hc]). }
    destruct Hcases as [[Hnone Hentry]|(c & Hc & Hp & Hsome)].
    + rewrite Hnone. cbn [for_of]. unfold mbind, Eff_bind. by rewrite Hentry.
    + rewrite Hsome. by apply Hmake.
Qed.

(** X15.  On a world whose members are objects of it, and a payload that
    stands for a list of entries (any but [null] and [undefined], on which
    normalization throws), [CreateFromXmlJsObjectCollection] returns, having
    made one element for each entry of the list that is not [null] and
    resolves to a class, in payload order: the new elements are appended to
    the sequence, each is a new object of the resolved class holding the
    state it loaded from its entry, one signal is emitted per element, and
    the elements and members that were there, the change arrays and the
    console are untouched. *)
Theorem CreateFromXmlJsObjectCollection_appends w payload service entries :
  Forall (λ x, (x < length (heap w))%nat) (items w) →
  collection_of payload = Normal entries →
  ∃ w', CreateFromXmlJsObjectCollection payload service w = (Normal tt, w') ∧
    let new_elements := instantiated entries in
    items w' = items w ++ seq (length (heap w)) (length new_elements) ∧
    heap w' = heap w ++ created service (binds w) new_elements ∧
    changed w' = (changed w + length new_elements)%nat ∧
    addedItems w' = addedItems w ∧ modifiedItems w' = modifiedItems w ∧
    removedItems w' = removedItems w ∧ console w' = console w.
Proof.
  intros Hobj Hentries. eexists. split.
  - rewrite CreateFromXmlJsObjectCollection_eq, Hentries. by apply create_loop.
  - by repeat split.
Qed.

End Creation.

(** ** What every run keeps of the pending removals *)

Section Removals.
Context `{Host}.
Implicit Types (w : world) (x : ref) (service : ExchangeService).

(** No reference is twice in [removedItems], a pending removal is not a
    member, and the pending removals are objects of the world. *)
Definition removals_consistent (w : world) : Prop :=
  NoDup (removedItems w) ∧ (∀ x, x ∈ removedItems w → x ∉ items w) ∧
  Forall (λ x, (x < length (heap w))%nat) (removedItems w).

Lemma removals_consistent_frame w w' :
  removedItems w' = removedItems w → items w' = items w →
  length (heap w') = length (heap w) →
  removals_consistent w → removals_consistent w'.
Proof. unfold removals_consistent. intros -> -> ->. done. Qed.

Lemma same_membership_removals w w' :
  same_membership w w' → removals_consistent w → removals_consistent w'.
Proof.
  intros (Hi & _ & Hr & _ & _ & Hc & _). apply removals_consistent_frame; try done.
  by rewrite <- (length_fmap constructor (heap w')), Hc, length_fmap.
Qed.

Lemma removals_consistent_reported reports w :
  removals_consistent w → removals_consistent (reported reports w).
Proof. unfold reported. by destruct DebugLogEnabled. Qed.

Lemma removals_consistent_new c w :
  removals_consistent w → removals_consistent (new c w).2.
Proof.
  intros (Hnd & Hdis & Hobj). repeat split; try done. simpl.
  eapply Forall_impl; [done|]. intros y Hy. simpl in *. rewrite length_app. lia.
Qed.

Lemma removals_consistent_InternalAdd x w :
  removals_consistent w → removals_consistent (InternalAdd x false w).2.
Proof.
  intros (Hnd & Hdis & Hobj). rewrite InternalAdd_eq.
  case_bool_decide as Hin; [done|]. repeat split; simpl.
  - by apply remove_first_NoDup.
  - intros y Hy. apply not_elem_of_app. split.
    + by apply Hdis, (remove_first_subseteq (removedItems w) x).
    + apply not_elem_of_cons. split; [|apply not_elem_of_nil].
      intros ->. by apply (remove_first_purges (removedItems w) x) in Hy.
  - rewrite length_alter. rewrite Forall_forall in Hobj |- *.
    intros y Hy. by apply Hobj, (remove_first_subseteq (removedItems w) x).
Qed.

Lemma removals_consistent_InternalRemove v w :
  well_formed w → removals_consistent w →
  removals_consistent (InternalRemove v w).2.
Proof.
  intros (_ & Hi & _ & _ & _ & Hmem & _) (Hnd & Hdis & Hobj).
  destruct v as [x|];
    [|rewrite InternalRemove_None; by apply removals_consistent_reported].
  rewrite InternalRemove_Some. case_bool_decide as Hin; [|done].
  assert (Hlater : ∀ y, y ∈ removedItems w → y ∉ remove_first x (items w)).
  { intros y Hy Hy'. by apply (Hdis y), (remove_first_subseteq (items w) x). }
  repeat split; simpl.
  - case_bool_decide; [done|].
    apply NoDup_app. repeat split; [done| |apply NoDup_singleton].
    intros y Hy ->%list_elem_of_singleton. by apply (Hdis x).
  - intros y Hy. case_bool_decide; [by apply Hlater|].
    apply elem_of_app in Hy as [Hy| ->%list_elem_of_singleton]; [by apply Hlater|].
    by apply remove_first_purges.
  - rewrite length_alter. case_bool_decide; [done|].
    apply Forall_app. split; [done|]. apply Forall_singleton.
    rewrite Forall_forall in Hmem. by apply Hmem.
Qed.

Lemma removals_consistent_InternalRemoveAt index w :
  well_formed w → removals_consistent w →
  removals_consistent (InternalRemoveAt index w).2.
Proof.
  intros Hw Hr. destruct (decide (0 ≤ index < Count w)) as [Hi|Hi].
  - unfold Count in Hi.
    destruct (lookup_lt_is_Some_2 (items w) (Z.to_nat index)) as [x Hx]; [lia|].
    rewrite (InternalRemoveAt_inside w index x) by (done || lia).
    pose proof (removals_consistent_InternalRemove (Some x) w Hw Hr) as Hr'.
    rewrite InternalRemove_Some, bool_decide_eq_true_2 in Hr'; [done|].
    by eapply list_elem_of_lookup_2.
  - rewrite InternalRemoveAt_outside by done.
    by apply removals_consistent_reported.
Qed.

Lemma removals_consistent_InternalClear w :
  well_formed w → removals_consistent w →
  removals_consistent (InternalClear w).2.
Proof.
  apply (InternalClear_elim
    (λ w r, well_formed w → removals_consistent w → removals_consistent r.2));
    clear w.
  - by intros w _ _.
  - intros w [] w' Hturn _ IH _ _ Hw Hr.
    pose proof (well_formed_InternalRemoveAt 0 w Hw) as Hw'.
    pose proof (removals_consistent_InternalRemoveAt 0 w Hw Hr) as Hr'.
    rewrite Hturn in Hw', Hr'. by apply IH.
  - intros w e w' Hturn _ _ _ Hw Hr.
    pose proof (removals_consistent_InternalRemoveAt 0 w Hw Hr) as Hr'.
    by rewrite Hturn in Hr'.
Qed.

Lemma removals_consistent_CreateFromXmlJsObjectCollection payload service w :
  well_formed w → removals_consistent w →
  removals_consistent (CreateFromXmlJsObjectCollection payload service w).2.
Proof.
  intros (_ & _ & _ & _ & _ & Hmem & _) (Hnd & Hdis & Hobj).
  rewrite CreateFromXmlJsObjectCollection_eq.
  destruct (collection_of payload) as [entries|e]; [|done].
  rewrite create_loop by done. repeat split; simpl; [done| |].
  - intros y Hy. apply not_elem_of_app. split; [by apply Hdis|].
    rewrite Forall_forall in Hobj. apply Hobj in Hy.
    intros Hin%list_elem_of_In%in_seq. lia.
  - eapply Forall_impl; [done|]. intros y Hy. simpl in *. rewrite length_app. lia.
Qed.

Lemma removals_consistent_ClearChangeLog w :
  removals_consistent w → removals_consistent (ClearChangeLog w).2.
Proof.
  intros _. repeat split; simpl; [apply NoDup_nil_2 | | apply Forall_nil_2].
  by intros y ?%elem_of_nil.
Qed.

Lemma removals_consistent_RemoveFromChangeLog x w :
  removals_consistent w → removals_consistent (RemoveFromChangeLog x w).2.
Proof.
  intros (Hnd & Hdis & Hobj). repeat split; simpl; rewrite RemoveEntry_spec; simpl.
  - by apply remove_first_NoDup.
  - intros y Hy. by apply Hdis, (remove_first_subseteq (removedItems w) x).
  - rewrite Forall_forall in Hobj |- *.
    intros y Hy. by apply Hobj, (remove_first_subseteq (removedItems w) x).
Qed.

Lemma reachable_removals_consistent w : reachable w → removals_consistent w.
Proof.
  induction 1 as [|o w Hr IH Hcall].
  { repeat split; simpl; [apply NoDup_nil_2 | | apply Forall_nil_2].
    by intros y ?%elem_of_nil. }
  pose proof (reachable_well_formed w Hr) as Hw.
  destruct o; simpl in *.
  - by apply removals_consistent_new.
  - by apply removals_consistent_InternalAdd.
  - by apply removals_consistent_InternalRemove.
  - by apply removals_consistent_InternalRemoveAt.
  - by apply removals_consistent_InternalClear.
  - by apply removals_consistent_CreateFromXmlJsObjectCollection.
  - eapply same_membership_removals; [|done].
    rewrite UpdateFromXmlJsObjectCollection_eq.
    destruct (collection_of payload) as [entries|e]; [|apply same_membership_refl].
    case_bool_decide; [apply same_membership_refl|].
    apply same_membership_update_loop.
  - eapply same_membership_removals; [|done]. apply same_membership_element_Changed.
  - by apply removals_consistent_ClearChangeLog.
  - by apply removals_consistent_RemoveFromChangeLog.
Qed.

(** X16.  In every world a client can reach by constructing elements, calling
    Add, Remove, RemoveAt, Clear, the two ingestion methods, ClearChangeLog
    and RemoveFromChangeLog, and changing elements: no element is twice in
    the sequence, in [addedItems], in [modifiedItems] or in [removedItems];
    every pending addition is a member; no pending removal is a member; no
    element is both a pending addition and a pending removal; and every
    member is an object with a delegate registered, all delegates being
    bound functions. *)
Theorem reachable_invariants w :
  reachable w →
  NoDup (items w) ∧ NoDup (addedItems w) ∧ NoDup (modifiedItems w) ∧
  NoDup (removedItems w) ∧
  addedItems w ⊆ items w ∧
  (∀ x, x ∈ removedItems w → x ∉ items w) ∧
  (∀ x, x ∈ addedItems w → x ∉ removedItems w) ∧
  Forall (subscribed w) (items w) ∧ delegates_bound w.
Proof.
  intros Hr.
  destruct (reachable_well_formed w Hr) as (Hb & Hi & Ha & Hm & Hai & _ & Hsub).
  destruct (reachable_removals_consistent w Hr) as (Hnd & Hdis & _).
  repeat split; try done.
  intros x Hx Hx'. by apply (Hdis x), Hai.
Qed.

(** X17.  In every reachable world, after [RemoveFromChangeLog(x)] the element
    [x] is in none of [addedItems], [modifiedItems] and [removedItems],
    every other element is in the arrays it was in, and the sequence is
    untouched. *)
Theorem RemoveFromChangeLog_purges w x :
  reachable w →
  ∃ w', RemoveFromChangeLog x w = (Normal tt, w') ∧ items w' = items w ∧
    (x ∉ addedItems w') ∧ (x ∉ modifiedItems w') ∧ (x ∉ removedItems w') ∧
    ∀ y, y ≠ x →
      (y ∈ addedItems w' ↔ y ∈ addedItems w) ∧
      (y ∈ modifiedItems w' ↔ y ∈ modifiedItems w) ∧
      (y ∈ removedItems w' ↔ y ∈ removedItems w).
Proof.
  intros Hr.
  destruct (reachable_well_formed w Hr) as (_ & _ & Ha & Hm & _).
  destruct (reachable_removals_consistent w Hr) as (Hnd & _).
  eexists. split; [reflexivity|]. simpl. rewrite !RemoveEntry_spec. simpl.
  split; [done|]. split; [by apply remove_first_purges|].
  split; [by apply remove_first_purges|]. split; [by apply remove_first_purges|].
  intros y Hne. repeat split; intros Hy;
    (by eapply remove_first_subseteq) || (by apply remove_first_other).
Qed.

End Removals.

(** ** The shapes of a wire payload *)

Section Shapes.
Context `{Host}.

(** The element payloads under one key of a keyed container: the value when
    it is an array, what [ReadAsArray] makes of it otherwise. *)
Definition entries_under (jsObjectCollection : jsval) (key : string)
  : list jsval :=
  match array_property jsObjectCollection key with
  | Some a => a
  | None => ReadAsArray jsObjectCollection key
  end.

(** The key is not one of the conversion's own entries ([__type],
    [__prefix], ...). *)
Definition element_key (key : string) : Prop := String.prefix "__" key = false.

Global Instance element_key_dec key : Decision (element_key key).
Proof. unfold element_key. apply _. Defined.

Lemma foldl_keys (v : jsval) (keys : list string) :
  ∀ acc,
    foldl (λ collection key,
             if String.prefix "__" key then collection
             else
               let collectionObj :=
                 match array_property v key with
                 | Some a => a
                 | None => ReadAsArray v key
                 end in
               collection ++ collectionObj) acc keys
    = acc ++ (filter element_key keys ≫= entries_under v).
Proof.
  induction keys as [|key keys IH]; intros acc; simpl.
  - by rewrite app_nil_r.
  - rewrite IH. unfold element_key at 2.
    destruct (String.prefix "__" key) eqn:Hk.
    + by rewrite filter_cons_False by (unfold element_key; congruence).
    + rewrite filter_cons_True by done. simpl. by rewrite <- app_assoc.
Qed.

(** X18.  The list of element payloads a wire payload stands for.  [null]
    and [undefined] stand for none: normalizing them throws a [TypeError],
    whatever the element tag of the collection.  An array stands for
    itself.  Any other payload stands for the one-element list of itself
    when the collection has no generic element tag, or when the payload's
    own type name is that tag; otherwise it stands for the concatenation,
    in key order, of the lists under its keys, the keys that begin with two
    underscores left out. *)
Theorem collection_of_shapes (payload : jsval) :
  (payload = JNull → collection_of payload = Throw TypeError) ∧
  (∀ l, payload = JArray l → collection_of payload = Normal l) ∧
  (payload ≠ JNull → (∀ l, payload ≠ JArray l) →
   (GetCollectionItemXmlElementName None = None ∨
    truthy (GetJsObjectTypeName payload) = true ∧
    GetCollectionItemXmlElementName None = GetJsObjectTypeName payload) →
   collection_of payload = Normal [payload]) ∧
  (payload ≠ JNull → (∀ l, payload ≠ JArray l) →
   GetCollectionItemXmlElementName None ≠ None →
   (truthy (GetJsObjectTypeName payload) = true →
    GetCollectionItemXmlElementName None ≠ GetJsObjectTypeName payload) →
   collection_of payload
     = Normal (filter element_key (js_keys payload) ≫= entries_under payload)).
Proof.
  split; [by intros ->|]. split; [by intros l ->|]. split.
  - intros Hnn Hna Hone.
    assert (Hcond : bool_decide (GetCollectionItemXmlElementName None = None)
              || (truthy (GetJsObjectTypeName payload)
                  && bool_decide (GetCollectionItemXmlElementName None
                                  = GetJsObjectTypeName payload)) = true).
    { destruct Hone as [Hn|[Ht He]].
      - by rewrite (bool_decide_eq_true_2 _ Hn).
      - rewrite Ht, (bool_decide_eq_true_2 _ He). apply orb_true_r. }
    destruct payload as [|s|l|props].
    + done.
    + simpl. by rewrite Hcond.
    + by destruct (Hna l).
    + simpl. by rewrite Hcond.
  - intros Hnn Hna Htag Hname.
    assert (Hcond : bool_decide (GetCollectionItemXmlElementName None = None)
              || (truthy (GetJsObjectTypeName payload)
                  && bool_decide (GetCollectionItemXmlElementName None
                                  = GetJsObjectTypeName payload)) = false).
    { rewrite (bool_decide_eq_false_2 _ Htag). simpl.
      destruct (truthy _) eqn:Ht; [|done]. simpl.
      by rewrite bool_decide_eq_false_2 by (by apply Hname). }
    destruct payload as [|s|l|props].
    + done.
    + unfold collection_of, TypeSystem_GetJsObjectTypeName.
      rewrite Hcond. by rewrite foldl_keys.
    + by destruct (Hna l).
    + unfold collection_of, TypeSystem_GetJsObjectTypeName.
      rewrite Hcond. by rewrite foldl_keys.
Qed.

End Shapes.

(** ** The collection's own [LoadFromXmlJsObject] *)

Section OwnLoad.
Context `{Host}.
Implicit Types (w : world) (service : ExchangeService).

(** X19.  [LoadFromXmlJsObject] of the collection, which asserts that it
    should not be called, still ingests.  The failed assertion goes to the
    diagnostic log and stops nothing.  On a world whose members are objects
    of it and a payload that stands for a list of entries, the call returns
    with the world [CreateFromXmlJsObjectCollection] leaves for the same
    payload; the console holds one report more when the log is enabled and
    is as that call leaves it when it is not.  On [null] and [undefined] it
    throws the [TypeError] that call throws. *)
Theorem collection_LoadFromXmlJsObject_creates w payload service entries :
  Forall (λ x, (x < length (heap w))%nat) (items w) →
  collection_of payload = Normal entries →
  (∃ w1, CreateFromXmlJsObjectCollection payload service w = (Normal tt, w1) ∧
     collection_LoadFromXmlJsObject payload service w
       = (Normal tt,
          reported
            [("ComplexPropertyCollection.LoadFromXmlJsObject",
              "LoadFromXmlJsObject was called, should not be calling. Fix it to direct to Create or Update call instad.")]%string
            w1)) ∧
  (collection_LoadFromXmlJsObject JNull service w).1 = Throw TypeError.
Proof.
  intros Hobj Hentries. split.
  - eexists. split.
    + rewrite CreateFromXmlJsObjectCollection_eq, Hentries. by apply create_loop.
    + unfold collection_LoadFromXmlJsObject, reported. eff.
      destruct DebugLogEnabled; simpl;
        rewrite CreateFromXmlJsObjectCollection_eq, Hentries;
        by rewrite create_loop.
  - unfold collection_LoadFromXmlJsObject. eff. by destruct DebugLogEnabled.
Qed.

End OwnLoad.

(** ** Further statements on concrete inputs *)

Module Samples.
Import Demo.

(** Three elements constructed; the first two added and synchronized, the
    third not added. *)
Definition synced : world :=
  perform op_ClearChangeLog
    (perform (op_Add 1%nat)
       (perform (op_Add 0%nat)
          (perform (op_new "Item"%string)
             (perform (op_new "Item"%string)
                (perform (op_new "Item"%string) empty_world))))).

(** The same with the third element added and the first changed since. *)
Definition edited : world :=
  perform (op_notify 0%nat) (perform (op_Add 2%nat) synced).

(** A keyed container with a type hint and four entries under one tag. *)
Definition keyed : jsval :=
  JObject [("__type"%string, JString "ArrayOfItems");
           ("Item"%string, JArray [JObject [("Name"%string, JString "a")]; JNull;
                                   JObject [("__type"%string, JString "Unknown")];
                                   JObject [("__type"%string, JString "Note")]])].

(** The entries it stands for. *)
Definition keyed_entries : list jsval :=
  [JObject [("Name"%string, JString "a")]; JNull;
   JObject [("__type"%string, JString "Unknown")];
   JObject [("__type"%string, JString "Note")]].

End Samples.

Section ConcreteFurther.
Import Demo Samples.

Ltac evaluate :=
  match goal with |- ?P => refine (bool_decide_unpack P _); vm_compute; exact I end.

Lemma synced_reachable : reachable synced.
Proof.
  unfold synced. repeat (apply reachable_perform; [|vm_compute; lia || exact I]).
  apply reachable_empty.
Defined.

Lemma edited_reachable : reachable edited.
Proof.
  unfold edited.
  do 2 (apply reachable_perform; [|vm_compute; lia]).
  apply synced_reachable.
Defined.

Lemma _getItem_bounds_witness :
  (¬ (0 ≤ 2 < Count synced) ∧
   _getItem 2 synced
     = (Throw (ArgumentOutOfRangeException "index" IndexIsOutOfRange), synced)) ∧
  (0 ≤ 1 < Count synced ∧ _getItem 1 synced = (Normal 1%nat, synced)).
Proof.
  destruct (_getItem_bounds synced 2) as [Hout _].
  destruct (_getItem_bounds synced 1) as [_ Hin].
  assert (H2 : ¬ (0 ≤ 2 < Count synced)) by (vm_compute; intros [_ ?]; done).
  assert (H1 : 0 ≤ 1 < Count synced) by (vm_compute; split; [discriminate | done]).
  split; [split; [done | by apply Hout]|]. split; [done|].
  destruct (Hin H1) as (x & Hx & ->). vm_compute in Hx. by injection Hx as <-.
Defined.

Lemma IndexOf_Contains_membership_witness :
  ((2%nat ∉ items synced) ∧ IndexOf 2%nat synced = (Normal (-1), synced)) ∧
  (1%nat ∈ items synced ∧ Contains 1%nat synced = (Normal true, synced)).
Proof.
  assert (Hout : 2%nat ∉ items synced) by evaluate.
  assert (Hin : 1%nat ∈ items synced) by evaluate.
  destruct (IndexOf_Contains_membership synced 2%nat) as (_ & i & Hi & Habsent & _).
  destruct (IndexOf_Contains_membership synced 1%nat) as (Hc & _).
  split; [split; [done|]|split; [done|]].
  - by rewrite Hi, (Habsent Hout).
  - by rewrite Hc, bool_decide_eq_true_2.
Defined.

Lemma IndexOf__getItem_round_trip_witness :
  1%nat ∈ items synced ∧ NoDup (items synced) ∧ 0 ≤ 1 < Count synced ∧
  (IndexOf 1%nat ≫= _getItem) synced = (Normal 1%nat, synced) ∧
  (_getItem 1 ≫= IndexOf) synced = (Normal 1, synced).
Proof.
  assert (Hin : 1%nat ∈ items synced) by evaluate.
  assert (Hnd : NoDup (items synced)) by evaluate.
  assert (H1 : 0 ≤ 1 < Count synced) by (vm_compute; split; [discriminate | done]).
  destruct (IndexOf__getItem_round_trip synced) as [Hthere Hback].
  split; [done|]. split; [done|]. split; [done|].
  split; [by apply Hthere | by apply Hback].
Defined.

Lemma InternalAdd_new_member_witness :
  (2%nat ∉ items synced) ∧
  ∃ w', InternalAdd 2%nat false synced = (Normal tt, w') ∧
    items w' = [0; 1; 2]%nat ∧ addedItems w' = [2%nat] ∧
    IndexOf 2%nat w' = (Normal 2, w').
Proof.
  assert (Hout : 2%nat ∉ items synced) by evaluate.
  split; [done|].
  destruct (InternalAdd_new_member synced 2%nat false Hout)
    as (w' & Hrun & Hi & _ & Hidx & Ha & _).
  exists w'. repeat split; done.
Defined.

Lemma Add_all_distinct_witness :
  NoDup [2; 0; 1]%nat ∧ (∀ x, x ∈ [2; 0; 1]%nat → x ∉ items empty_world) ∧
  ∃ w', Add_all [2; 0; 1]%nat empty_world = (Normal tt, w') ∧
    items w' = [2; 0; 1]%nat ∧ Count w' = 3 ∧
    IndexOf 0%nat w' = (Normal 1, w').
Proof.
  assert (Hnd : NoDup [2; 0; 1]%nat) by evaluate.
  assert (Hnew : ∀ x, x ∈ [2; 0; 1]%nat → x ∉ items empty_world)
    by (intros x _; apply not_elem_of_nil).
  split; [done|]. split; [done|].
  destruct (Add_all_distinct [2; 0; 1]%nat empty_world Hnd Hnew)
    as (w' & Hrun & Hi & _ & Hc & _ & Hidx).
  exists w'. repeat split; try done. by apply (Hidx 1%nat).
Defined.

Lemma Add_then_Remove_cancels_witness :
  (2%nat ∉ items synced) ∧ (2%nat ∉ addedItems synced) ∧
  ∃ w', (InternalAdd 2%nat false;; InternalRemove (Some 2%nat)) synced
          = (Normal true, w') ∧
    items w' = items synced ∧ addedItems w' = [] ∧ removedItems w' = [].
Proof.
  assert (Hi : 2%nat ∉ items synced) by evaluate.
  assert (Ha : 2%nat ∉ addedItems synced) by evaluate.
  split; [done|]. split; [done|].
  destruct (Add_then_Remove_cancels synced 2%nat Hi Ha)
    as (w' & Hrun & Hi' & Ha' & Hr' & _).
  exists w'. repeat split; done.
Defined.

Lemma Remove_then_Add_reinstates_witness :
  (NoDup (items synced) ∧ 0%nat ∈ items synced ∧ (0%nat ∉ addedItems synced) ∧
   0%nat ∉ removedItems synced) ∧
  ∃ w', (InternalRemove (Some 0%nat);; InternalAdd 0%nat false) synced
          = (Normal tt, w') ∧
    items w' = [1; 0]%nat ∧ addedItems w' = [0%nat] ∧ removedItems w' = [].
Proof.
  assert (Hnd : NoDup (items synced)) by evaluate.
  assert (Hi : 0%nat ∈ items synced) by evaluate.
  assert (Ha : 0%nat ∉ addedItems synced) by evaluate.
  assert (Hr : 0%nat ∉ removedItems synced) by evaluate.
  split; [done|].
  destruct (Remove_then_Add_reinstates synced 0%nat Hnd Hi Ha Hr)
    as (w' & Hrun & Hi' & Ha' & Hr' & _).
  exists w'. repeat split; done.
Defined.

Lemma ItemChanged_effects_witness :
  ((0%nat ∉ addedItems synced) ∧ (0%nat ∉ modifiedItems synced) ∧
   ∃ w', ItemChanged 0%nat synced = (Normal tt, w') ∧ modifiedItems w' = [0%nat]) ∧
  (0%nat ∈ modifiedItems edited ∧ ItemChanged 0%nat edited = (Normal tt, edited)) ∧
  (2%nat ∈ addedItems edited ∧ ItemChanged 2%nat edited = (Normal tt, edited)).
Proof.
  assert (Ha : 0%nat ∉ addedItems synced) by evaluate.
  assert (Hm : 0%nat ∉ modifiedItems synced) by evaluate.
  assert (Hm' : 0%nat ∈ modifiedItems edited) by evaluate.
  assert (Ha' : 2%nat ∈ addedItems edited) by evaluate.
  destruct (ItemChanged_effects synced 0%nat) as (_ & Hmark & _).
  destruct (ItemChanged_effects edited 0%nat) as (Hsame0 & _).
  destruct (ItemChanged_effects edited 2%nat) as (Hsame2 & _).
  split; [|split].
  - split; [done|]. split; [done|].
    destruct (Hmark Ha Hm) as (w' & Hrun & Hmod & _). by exists w'.
  - split; [done|]. apply Hsame0. by right.
  - split; [done|]. apply Hsame2. by left.
Defined.

Lemma InternalRemoveAt_deletes_position_witness :
  NoDup (items edited) ∧ 0 ≤ 1 < Count edited ∧
  items (InternalRemoveAt 1 edited).2 = [0; 2]%nat.
Proof.
  assert (Hnd : NoDup (items edited)) by evaluate.
  assert (H1 : 0 ≤ 1 < Count edited) by (vm_compute; split; [discriminate | done]).
  split; [done|]. split; [done|].
  by rewrite (InternalRemoveAt_deletes_position edited 1 Hnd H1).
Defined.

Lemma InternalClear_change_log_witness :
  (NoDup (items edited) ∧ NoDup (addedItems edited) ∧ NoDup (modifiedItems edited)) ∧
  ∃ w', InternalClear edited = (Normal tt, w') ∧ items w' = [] ∧
    addedItems w' = [] ∧ modifiedItems w' = [] ∧ removedItems w' = [0; 1]%nat.
Proof.
  assert (Hi : NoDup (items edited)) by evaluate.
  assert (Ha : NoDup (addedItems edited)) by evaluate.
  assert (Hm : NoDup (modifiedItems edited)) by evaluate.
  split; [done|].
  destruct (InternalClear_change_log edited Hi Ha Hm)
    as (w' & Hrun & Hi' & Ha' & Hm' & Hr' & _).
  exists w'. repeat split; done.
Defined.

Lemma UpdateFromXmlJsObjectCollection_accepted_witness :
  (delegates_bound w3 ∧ NoDup (items w3) ∧
   collection_of (JArray [renamed; renamed]) = Normal [renamed; renamed] ∧
   Count w3 = Z.of_nat (length [renamed; renamed]) ∧
   accepts w3 0 renamed = true ∧ accepts w3 1 renamed = true) ∧
  ∃ w', UpdateFromXmlJsObjectCollection (JArray [renamed; renamed]) tt w3
          = (Normal tt, w') ∧
    items w' = items w3 ∧
    state <$> heap w' !! 1%nat = Some [renamed].
Proof.
  assert (Hb : delegates_bound w3) by evaluate.
  assert (Hnd : NoDup (items w3)) by evaluate.
  split; [by repeat split|].
  destruct (UpdateFromXmlJsObjectCollection_accepted
              w3 (JArray [renamed; renamed]) tt [renamed; renamed] Hb Hnd)
    as (w' & Hrun & Hi & _ & Hloaded).
  - reflexivity.
  - reflexivity.
  - intros [|[|j]] p Hp; [| |done]; injection Hp as <-; reflexivity.
  - exists w'. split; [done|]. split; [done|].
    by rewrite (Hloaded 1%nat renamed 1%nat
                  (Element ("Item"%string : @ctor host) [ItemChanged_bound 1]
                           ([] : @fields host))).
Defined.

Lemma UpdateFromXmlJsObjectCollection_marks_modified_witness :
  (delegates_bound w3 ∧ NoDup (items w3) ∧ (1%nat ∉ addedItems w3) ∧
   1%nat ∉ modifiedItems w3) ∧
  ∃ w', UpdateFromXmlJsObjectCollection (JArray [renamed; renamed]) tt w3
          = (Normal tt, w') ∧
    1%nat ∈ modifiedItems w'.
Proof.
  assert (Hb : delegates_bound w3) by evaluate.
  assert (Hnd : NoDup (items w3)) by evaluate.
  assert (Ha : 1%nat ∉ addedItems w3) by evaluate.
  assert (Hm : 1%nat ∉ modifiedItems w3) by evaluate.
  split; [done|].
  apply (UpdateFromXmlJsObjectCollection_marks_modified
           w3 (JArray [renamed; renamed]) tt [renamed; renamed] 1%nat renamed 1%nat
           (Element ("Item"%string : @ctor host) [ItemChanged_bound 1]
                    ([] : @fields host))); try done.
  intros [|[|j]] p Hp; [| |done]; injection Hp as <-; reflexivity.
Defined.

Lemma CreateFromXmlJsObjectCollection_appends_witness :
  Forall (λ x, (x < length (heap synced))%nat) (items synced) ∧
  collection_of keyed = Normal keyed_entries ∧
  ∃ w', CreateFromXmlJsObjectCollection keyed tt synced = (Normal tt, w') ∧
    items w' = [0; 1; 3; 4]%nat ∧
    constructor <$> heap w' = ["Item"; "Item"; "Item"; "Item"; "Note"]%string ∧
    addedItems w' = [] ∧ changed w' = (changed synced + 2)%nat.
Proof.
  assert (Hobj : Forall (λ x, (x < length (heap synced))%nat) (items synced))
    by evaluate.
  assert (Hentries : collection_of keyed = Normal keyed_entries) by reflexivity.
  split; [done|]. split; [done|].
  destruct (CreateFromXmlJsObjectCollection_appends
              synced keyed tt keyed_entries Hobj Hentries)
    as (w' & Hrun & Hi & Hh & Hch & Ha & _).
  exists w'. split; [done|]. rewrite Hi, Hh, Hch, Ha. by vm_compute.
Defined.

Lemma reachable_invariants_witness :
  reachable edited ∧ NoDup (items edited) ∧
  (∀ x, x ∈ addedItems edited → x ∉ removedItems edited).
Proof.
  split; [apply edited_reachable|].
  destruct (reachable_invariants edited edited_reachable)
    as (Hi & _ & _ & _ & _ & _ & Hdis & _).
  by split.
Defined.

Lemma RemoveFromChangeLog_purges_witness :
  reachable edited ∧
  ∃ w', RemoveFromChangeLog 0%nat edited = (Normal tt, w') ∧
    (0%nat ∉ modifiedItems w') ∧ items w' = items edited ∧
    (2%nat ∈ addedItems w' ↔ 2%nat ∈ addedItems edited).
Proof.
  split; [apply edited_reachable|].
  destruct (RemoveFromChangeLog_purges edited 0%nat edited_reachable)
    as (w' & Hrun & Hi & _ & Hm & _ & Hother).
  exists w'. repeat split; try done; by apply (Hother 2%nat).
Defined.

Lemma collection_of_shapes_witness :
  keyed ≠ JNull ∧ (∀ l, keyed ≠ JArray l) ∧
  GetCollectionItemXmlElementName None ≠ None ∧
  collection_of keyed = Normal keyed_entries.
Proof.
  assert (Hnn : keyed ≠ JNull) by done.
  assert (Hna : ∀ l, keyed ≠ JArray l) by done.
  assert (Htag : GetCollectionItemXmlElementName None ≠ None) by done.
  split; [done|]. split; [done|]. split; [done|].
  destruct (collection_of_shapes keyed) as (_ & _ & _ & Hkeyed).
  rewrite (Hkeyed Hnn Hna Htag); [reflexivity|]. intros _. vm_compute. discriminate.
Defined.

(** One member, the log on: the two elements the keyed payload gives are
    appended and the console holds the report of the call. *)
Lemma collection_LoadFromXmlJsObject_creates_witness :
  Forall (λ x, (x < length (heap w2_verbose))%nat) (items w2_verbose) ∧
  @collection_of verbose keyed = Normal keyed_entries ∧
  ∃ w', @collection_LoadFromXmlJsObject verbose keyed tt w2_verbose
          = (Normal tt, w') ∧
    items w' = [0; 1; 2]%nat ∧ addedItems w' = [0%nat] ∧
    console w'
      = [("ComplexPropertyCollection.LoadFromXmlJsObject",
          "LoadFromXmlJsObject was called, should not be calling. Fix it to direct to Create or Update call instad.")]%string.
Proof.
  assert (Hobj : Forall (λ x, (x < length (heap w2_verbose))%nat) (items w2_verbose))
    by evaluate.
  assert (Hentries : @collection_of verbose keyed = Normal keyed_entries)
    by reflexivity.
  split; [done|]. split; [done|].
  destruct (@collection_LoadFromXmlJsObject_creates verbose
              w2_verbose keyed tt keyed_entries Hobj Hentries)
    as ((w1 & Hcreate & Hrun) & _).
  eexists. split; [exact Hrun|].
  vm_compute in Hcreate. injection Hcreate as <-. by vm_compute.
Defined.

End ConcreteFurther.
